(** * cmgen: the command-line driver of the IBL precomputation tool

    A shallow embedding of [tools/cmgen/src/main.cpp]: option handling
    ([handleCommandLineArgments]) and the orchestration in [main], together
    with the parts of the cubemap library the driver relies on.  The cubemap
    library itself ([Cubemap], [CubemapUtils], [CubemapIBL], [utilities.h],
    [cmgen.h]) is not part of the driver file; what the driver needs from it
    is either taken as a parameter of a section or, where a property is about
    it, modelled from the specification and marked as such. *)

From Stdlib Require Import ZArith List String Ascii Bool Lia.
From Stdlib Require Import Floats DecimalString.
From Equations Require Import Equations.
Import ListNotations.
Open Scope Z_scope.

(** ** Cubemap faces and the texel store *)

Inductive Face := PX | NX | PY | NY | PZ | NZ.

Inductive Side := SLeft | SRight | STop | SBottom.

Definition all_faces : list Face := [PX; NX; PY; NY; PZ; NZ].
Definition all_sides : list Side := [SLeft; SRight; STop; SBottom].

Definition Face_eqb (a b : Face) : bool :=
  match a, b with
  | PX, PX | NX, NX | PY, PY | NY, NY | PZ, PZ | NZ, NZ => true
  | _, _ => false
  end.

(** A texel position: face, column, row.  Columns and rows of the face
    proper run over [0 .. dim-1]; the border ring sits at [-1] and [dim]. *)
Definition pos : Type := Face * Z * Z.

Definition pos_eqb (p q : pos) : bool :=
  let '(f, x, y) := p in
  let '(g, u, v) := q in
  Face_eqb f g && (x =? u) && (y =? v).

Definition interior (dim x y : Z) : Prop := 0 <= x < dim /\ 0 <= y < dim.

(** Position of the [i]-th texel of the border ring along side [s]. *)
Definition border_xy (dim : Z) (s : Side) (i : Z) : Z * Z :=
  match s with
  | SLeft => (-1, i)
  | SRight => (dim, i)
  | STop => (i, -1)
  | SBottom => (i, dim)
  end.

(** Position of the [i]-th interior texel along side [s]. *)
Definition edge_xy (dim : Z) (s : Side) (i : Z) : Z * Z :=
  match s with
  | SLeft => (0, i)
  | SRight => (dim - 1, i)
  | STop => (i, 0)
  | SBottom => (i, dim - 1)
  end.

(** The index permutation along a shared edge: kept or reversed. *)
Definition permute (dim : Z) (rev : bool) (i : Z) : Z :=
  if rev then dim - 1 - i else i.

(** The [i]-th ring texel and the [i]-th interior texel along side [s] of
    face [f], as positions. *)
Definition border_pos (dim : Z) (f : Face) (s : Side) (i : Z) : pos :=
  let '(x, y) := border_xy dim s i in (f, x, y).

Definition edge_pos (dim : Z) (f : Face) (s : Side) (i : Z) : pos :=
  let '(x, y) := edge_xy dim s i in (f, x, y).

Definition Zrange (n : Z) : list Z := map Z.of_nat (seq 0 (Z.to_nat n)).

Section Seam.

(** A texel (an RGB triple of floats in the tool); copies are exact, so
    nothing but equality is needed of it. *)
Variable T : Type.

Definition texels : Type := Face -> Z -> Z -> T.

(** A cubemap is a view of six square faces of one dimension. *)
Record Cubemap := mkCubemap {
  getDimensions : Z;
  texelAt : texels
}.

Definition with_texels (c : Cubemap) (t : texels) : Cubemap :=
  mkCubemap (getDimensions c) t.

Definition read (t : texels) (p : pos) : T :=
  let '(f, x, y) := p in t f x y.

Definition write (p : pos) (v : T) (t : texels) : texels :=
  fun f x y => if pos_eqb p (f, x, y) then v else t f x y.

(** The face adjacency of the cube: the neighbour across side [s] of face
    [f], the side of the neighbour that is shared, and whether the index
    along the edge is reversed.  The table lives in the cubemap library. *)
Variable neighbour : Face -> Side -> Face * Side * bool.

(** The corner rule: how the texel of a corner of the ring is resolved from
    the face's own corner texel and the two ring texels next to it. *)
Variable corner_rule : T -> T -> T -> T.

(** In-place texel copies, run in order: [(dst, src)]. *)
Definition run_copies (ops : list (pos * pos)) (t : texels) : texels :=
  fold_left (fun t op => write (fst op) (read t (snd op)) t) ops t.

(** The interior texel of the neighbouring face that lies across the
    [i]-th ring texel of side [s] of face [f]. *)
Definition source_pos (dim : Z) (f : Face) (s : Side) (i : Z) : pos :=
  let '(nf, ns, rev) := neighbour f s in
  edge_pos dim nf ns (permute dim rev i).

Definition stitch_ops (dim : Z) (f : Face) (s : Side) : list (pos * pos) :=
  map (fun i => (border_pos dim f s i, source_pos dim f s i)) (Zrange dim).

Definition stitch (dim : Z) (f : Face) (s : Side) (t : texels) : texels :=
  run_copies (stitch_ops dim f s) t.

Definition stitch_face (dim : Z) (t : texels) (f : Face) : texels :=
  fold_left (fun t s => stitch dim f s t) all_sides t.

Definition corners (dim : Z) (t : texels) (f : Face) : texels :=
  let L := dim - 1 in
  let t1 := write (f, -1, -1)
              (corner_rule (t f 0 0) (t f (-1) 0) (t f 0 (-1))) t in
  let t2 := write (f, dim, -1)
              (corner_rule (t1 f L 0) (t1 f dim 0) (t1 f L (-1))) t1 in
  let t3 := write (f, -1, dim)
              (corner_rule (t2 f 0 L) (t2 f (-1) L) (t2 f 0 dim)) t2 in
  write (f, dim, dim)
    (corner_rule (t3 f L L) (t3 f dim L) (t3 f L dim)) t3.

(** Modelled from the spec: [Cubemap::makeSeamless] (the cubemap library is
    not part of the driver file).  It rewrites the one-texel border ring of
    every face by copying the interior-edge texels of the neighbouring
    faces, with the index permutation of the shared edge, and resolves each
    corner by the corner rule. *)
Definition makeSeamless (c : Cubemap) : Cubemap :=
  let dim := getDimensions c in
  let t1 := fold_left (stitch_face dim) all_faces (texelAt c) in
  let t2 := fold_left (corners dim) all_faces t1 in
  with_texels c t2.

(** The seam condition on the shared edges. *)
Definition edges_seamless (c : Cubemap) : Prop :=
  forall f s i, 0 <= i < getDimensions c ->
    read (texelAt c) (border_pos (getDimensions c) f s i) =
    read (texelAt c) (source_pos (getDimensions c) f s i).

(** The four corners of the ring of every face follow the corner rule. *)
Definition corner_equations (dim : Z) (t : texels) (f : Face) : Prop :=
  let L := dim - 1 in
  t f (-1) (-1) = corner_rule (t f 0 0) (t f (-1) 0) (t f 0 (-1)) /\
  t f dim (-1) = corner_rule (t f L 0) (t f dim 0) (t f L (-1)) /\
  t f (-1) dim = corner_rule (t f 0 L) (t f (-1) L) (t f 0 dim) /\
  t f dim dim = corner_rule (t f L L) (t f dim L) (t f L dim).

Definition corners_resolved (c : Cubemap) : Prop :=
  forall f, corner_equations (getDimensions c) (texelAt c) f.

Definition seamless (c : Cubemap) : Prop :=
  edges_seamless c /\ (1 <= getDimensions c -> corners_resolved c).

End Seam.

Arguments mkCubemap {T}.
Arguments getDimensions {T}.
Arguments texelAt {T}.
Arguments with_texels {T}.
Arguments read {T}.
Arguments write {T}.
Arguments run_copies {T}.
Arguments stitch {T}.
Arguments stitch_face {T}.
Arguments corners {T}.
Arguments makeSeamless {T}.
Arguments edges_seamless {T}.
Arguments corner_equations {T}.
Arguments corners_resolved {T}.
Arguments seamless {T}.

(** The adjacency of the horizontal cross
<<
        +Y
    -X  +Z  +X  -Z
        -Y
>>
    used to exercise the model on concrete cubemaps. *)
Definition cross_neighbour (f : Face) (s : Side) : Face * Side * bool :=
  match f, s with
  | PZ, SLeft => (NX, SRight, false) | PZ, SRight => (PX, SLeft, false)
  | PZ, STop => (PY, SBottom, false) | PZ, SBottom => (NY, STop, false)
  | NX, SLeft => (NZ, SRight, false) | NX, SRight => (PZ, SLeft, false)
  | NX, STop => (PY, SLeft, false)   | NX, SBottom => (NY, SLeft, true)
  | PX, SLeft => (PZ, SRight, false) | PX, SRight => (NZ, SLeft, false)
  | PX, STop => (PY, SRight, true)   | PX, SBottom => (NY, SRight, false)
  | NZ, SLeft => (PX, SRight, false) | NZ, SRight => (NX, SLeft, false)
  | NZ, STop => (PY, STop, true)     | NZ, SBottom => (NY, SBottom, true)
  | PY, SLeft => (NX, STop, false)   | PY, SRight => (PX, STop, true)
  | PY, STop => (NZ, STop, true)     | PY, SBottom => (PZ, STop, false)
  | NY, SLeft => (NX, SBottom, true) | NY, SRight => (PX, SBottom, false)
  | NY, STop => (PZ, SBottom, false) | NY, SBottom => (NZ, SBottom, true)
  end.

(** ** Machine integers *)

(** [size_t] and [unsigned long] are 64 bits wide, [int] and [unsigned int]
    32 bits; unsigned arithmetic wraps around. *)
Definition size_t (z : Z) : Z := z mod 2 ^ 64.
Definition unsigned_int (z : Z) : Z := z mod 2 ^ 32.
Definition INT_MIN : Z := - 2 ^ 31.
Definition INT_MAX : Z := 2 ^ 31 - 1.
Definition ULONG_MAX : Z := 2 ^ 64 - 1.

(** With [width == 2*height] in [size_t] arithmetic and a width that is not
    0, neither [width*3 == height*4] nor [height*3 == width*4] holds; with
    width 0 the second can hold for height 0 only. *)
Lemma twice_is_no_cross width height :
  0 < width < 2 ^ 64 -> 0 <= height < 2 ^ 64 ->
  width = size_t (2 * height) ->
  size_t (width * 3) <> size_t (height * 4) /\
  size_t (height * 3) <> size_t (width * 4).
Proof.
  unfold size_t. change (2 ^ 64) with 18446744073709551616.
  intros Hw Hh E. split; intros C; Z.div_mod_to_equations; lia.
Qed.

Lemma thrice_zero height :
  0 <= height < 2 ^ 64 -> size_t (height * 3) = size_t (0 * 4) ->
  height = 0.
Proof.
  unfold size_t. change (2 ^ 64) with 18446744073709551616.
  intros Hh C. Z.div_mod_to_equations. lia.
Qed.

(** ** The numeric conversions of the C++ standard library *)

Inductive exception := invalid_argument | out_of_range.

Inductive conv (A : Type) :=
| Value (a : A)
| Raise (e : exception).
Arguments Value {A}.
Arguments Raise {A}.

Definition isspace (c : ascii) : bool :=
  let n := Z.of_N (N_of_ascii c) in
  (n =? 32) || ((9 <=? n) && (n <=? 13)).

Definition digit_of (c : ascii) : option Z :=
  let n := Z.of_N (N_of_ascii c) in
  if (48 <=? n) && (n <=? 57) then Some (n - 48) else None.

Fixpoint skip_space (s : string) : string :=
  match s with
  | String c r => if isspace c then skip_space r else s
  | EmptyString => s
  end.

Fixpoint scan_digits (s : string) (acc : Z) : Z :=
  match s with
  | String c r =>
      match digit_of c with
      | Some d => scan_digits r (10 * acc + d)
      | None => acc
      end
  | EmptyString => acc
  end.

(** The subject sequence of [strtol]/[strtoul] in base 10: leading white
    space, an optional sign, then at least one digit; what follows the digits
    is ignored.  [None] when there is no digit to convert. *)
Definition scan_integer (s : string) : option (bool * Z) :=
  let s1 := skip_space s in
  let '(neg, s2) :=
    match s1 with
    | String "-"%char r => (true, r)
    | String "+"%char r => (false, r)
    | _ => (false, s1)
    end in
  match s2 with
  | String c _ =>
      match digit_of c with
      | Some _ => Some (neg, scan_digits s2 0)
      | None => None
      end
  | EmptyString => None
  end.

(** [std::stoi]. *)
Definition stoi (s : string) : conv Z :=
  match scan_integer s with
  | None => Raise invalid_argument
  | Some (neg, m) =>
      let v := if neg then - m else m in
      if (INT_MIN <=? v) && (v <=? INT_MAX) then Value v
      else Raise out_of_range
  end.

(** [std::stoul]: a minus sign negates in unsigned arithmetic. *)
Definition stoul (s : string) : conv Z :=
  match scan_integer s with
  | None => Raise invalid_argument
  | Some (neg, m) =>
      if m <=? ULONG_MAX then Value (if neg then size_t (- m) else m)
      else Raise out_of_range
  end.

Fixpoint strip_prefix (p s : string) : option string :=
  match p, s with
  | EmptyString, _ => Some s
  | String a p', String b s' =>
      if Ascii.eqb a b then strip_prefix p' s' else None
  | String _ _, EmptyString => None
  end.

(** [sscanf(name, "<prefix>%u", &p) == 1], with the value stored in [p]. *)
Definition sscanf_u (prefix name : string) : option Z :=
  match strip_prefix prefix name with
  | None => None
  | Some r =>
      match scan_integer r with
      | None => None
      | Some (neg, m) => Some (unsigned_int (if neg then - m else m))
      end
  end.

Definition string_of_Z (z : Z) : string :=
  NilZero.string_of_int (Z.to_int z).

(** ** Option state *)

(** [ImageEncoder::Format]. *)
Inductive Format := PNG | HDR | RGBM | EXR | PSD | DDS_LINEAR.

(** [ShFile]; [SH_NONE] stands for the value the declaration starts with. *)
Inductive ShFile := SH_NONE | SH_CROSS | SH_TEXT.

Record Globals := mkGlobals {
  g_quiet : bool;
  g_format : Format;
  g_compression : string;
  g_output_size : Z;
  g_sh_compute : Z;
  g_sh_output : bool;
  g_sh_file : ShFile;
  g_sh_filename : string;
  g_sh_irradiance : bool;
  g_sh_shader : bool;
  g_extract_dir : string;
  g_extract_faces : bool;
  g_extract_blur : float;
  g_is_mipmap : bool;
  g_is_mipmap_dir : string;
  g_prefilter : bool;
  g_prefilter_dir : string;
  g_dfg : bool;
  g_dfg_filename : string;
  g_dfg_multiscatter : bool;
  g_num_samples : Z;
  g_deploy : bool;
  g_deploy_dir : string;
  g_debug : bool;
  g_mirror : bool
}.

Definition set_g_quiet (v : bool) (g : Globals) : Globals :=
  mkGlobals v (g_format g) (g_compression g) (g_output_size g) (g_sh_compute
    g) (g_sh_output g) (g_sh_file g) (g_sh_filename g) (g_sh_irradiance g)
    (g_sh_shader g) (g_extract_dir g) (g_extract_faces g) (g_extract_blur g)
    (g_is_mipmap g) (g_is_mipmap_dir g) (g_prefilter g) (g_prefilter_dir g)
    (g_dfg g) (g_dfg_filename g) (g_dfg_multiscatter g) (g_num_samples g)
    (g_deploy g) (g_deploy_dir g) (g_debug g) (g_mirror g).
Definition set_g_format (v : Format) (g : Globals) : Globals :=
  mkGlobals (g_quiet g) v (g_compression g) (g_output_size g) (g_sh_compute
    g) (g_sh_output g) (g_sh_file g) (g_sh_filename g) (g_sh_irradiance g)
    (g_sh_shader g) (g_extract_dir g) (g_extract_faces g) (g_extract_blur g)
    (g_is_mipmap g) (g_is_mipmap_dir g) (g_prefilter g) (g_prefilter_dir g)
    (g_dfg g) (g_dfg_filename g) (g_dfg_multiscatter g) (g_num_samples g)
    (g_deploy g) (g_deploy_dir g) (g_debug g) (g_mirror g).
Definition set_g_compression (v : string) (g : Globals) : Globals :=
  mkGlobals (g_quiet g) (g_format g) v (g_output_size g) (g_sh_compute g)
    (g_sh_output g) (g_sh_file g) (g_sh_filename g) (g_sh_irradiance g)
    (g_sh_shader g) (g_extract_dir g) (g_extract_faces g) (g_extract_blur g)
    (g_is_mipmap g) (g_is_mipmap_dir g) (g_prefilter g) (g_prefilter_dir g)
    (g_dfg g) (g_dfg_filename g) (g_dfg_multiscatter g) (g_num_samples g)
    (g_deploy g) (g_deploy_dir g) (g_debug g) (g_mirror g).
Definition set_g_output_size (v : Z) (g : Globals) : Globals :=
  mkGlobals (g_quiet g) (g_format g) (g_compression g) v (g_sh_compute g)
    (g_sh_output g) (g_sh_file g) (g_sh_filename g) (g_sh_irradiance g)
    (g_sh_shader g) (g_extract_dir g) (g_extract_faces g) (g_extract_blur g)
    (g_is_mipmap g) (g_is_mipmap_dir g) (g_prefilter g) (g_prefilter_dir g)
    (g_dfg g) (g_dfg_filename g) (g_dfg_multiscatter g) (g_num_samples g)
    (g_deploy g) (g_deploy_dir g) (g_debug g) (g_mirror g).
Definition set_g_sh_compute (v : Z) (g : Globals) : Globals :=
  mkGlobals (g_quiet g) (g_format g) (g_compression g) (g_output_size g) v
    (g_sh_output g) (g_sh_file g) (g_sh_filename g) (g_sh_irradiance g)
    (g_sh_shader g) (g_extract_dir g) (g_extract_faces g) (g_extract_blur g)
    (g_is_mipmap g) (g_is_mipmap_dir g) (g_prefilter g) (g_prefilter_dir g)
    (g_dfg g) (g_dfg_filename g) (g_dfg_multiscatter g) (g_num_samples g)
    (g_deploy g) (g_deploy_dir g) (g_debug g) (g_mirror g).
Definition set_g_sh_output (v : bool) (g : Globals) : Globals :=
  mkGlobals (g_quiet g) (g_format g) (g_compression g) (g_output_size g)
    (g_sh_compute g) v (g_sh_file g) (g_sh_filename g) (g_sh_irradiance g)
    (g_sh_shader g) (g_extract_dir g) (g_extract_faces g) (g_extract_blur g)
    (g_is_mipmap g) (g_is_mipmap_dir g) (g_prefilter g) (g_prefilter_dir g)
    (g_dfg g) (g_dfg_filename g) (g_dfg_multiscatter g) (g_num_samples g)
    (g_deploy g) (g_deploy_dir g) (g_debug g) (g_mirror g).
Definition set_g_sh_file (v : ShFile) (g : Globals) : Globals :=
  mkGlobals (g_quiet g) (g_format g) (g_compression g) (g_output_size g)
    (g_sh_compute g) (g_sh_output g) v (g_sh_filename g) (g_sh_irradiance g)
    (g_sh_shader g) (g_extract_dir g) (g_extract_faces g) (g_extract_blur g)
    (g_is_mipmap g) (g_is_mipmap_dir g) (g_prefilter g) (g_prefilter_dir g)
    (g_dfg g) (g_dfg_filename g) (g_dfg_multiscatter g) (g_num_samples g)
    (g_deploy g) (g_deploy_dir g) (g_debug g) (g_mirror g).
Definition set_g_sh_filename (v : string) (g : Globals) : Globals :=
  mkGlobals (g_quiet g) (g_format g) (g_compression g) (g_output_size g)
    (g_sh_compute g) (g_sh_output g) (g_sh_file g) v (g_sh_irradiance g)
    (g_sh_shader g) (g_extract_dir g) (g_extract_faces g) (g_extract_blur g)
    (g_is_mipmap g) (g_is_mipmap_dir g) (g_prefilter g) (g_prefilter_dir g)
    (g_dfg g) (g_dfg_filename g) (g_dfg_multiscatter g) (g_num_samples g)
    (g_deploy g) (g_deploy_dir g) (g_debug g) (g_mirror g).
Definition set_g_sh_irradiance (v : bool) (g : Globals) : Globals :=
  mkGlobals (g_quiet g) (g_format g) (g_compression g) (g_output_size g)
    (g_sh_compute g) (g_sh_output g) (g_sh_file g) (g_sh_filename g) v
    (g_sh_shader g) (g_extract_dir g) (g_extract_faces g) (g_extract_blur g)
    (g_is_mipmap g) (g_is_mipmap_dir g) (g_prefilter g) (g_prefilter_dir g)
    (g_dfg g) (g_dfg_filename g) (g_dfg_multiscatter g) (g_num_samples g)
    (g_deploy g) (g_deploy_dir g) (g_debug g) (g_mirror g).
Definition set_g_sh_shader (v : bool) (g : Globals) : Globals :=
  mkGlobals (g_quiet g) (g_format g) (g_compression g) (g_output_size g)
    (g_sh_compute g) (g_sh_output g) (g_sh_file g) (g_sh_filename g)
    (g_sh_irradiance g) v (g_extract_dir g) (g_extract_faces g)
    (g_extract_blur g) (g_is_mipmap g) (g_is_mipmap_dir g) (g_prefilter g)
    (g_prefilter_dir g) (g_dfg g) (g_dfg_filename g) (g_dfg_multiscatter g)
    (g_num_samples g) (g_deploy g) (g_deploy_dir g) (g_debug g) (g_mirror
    g).
Definition set_g_extract_dir (v : string) (g : Globals) : Globals :=
  mkGlobals (g_quiet g) (g_format g) (g_compression g) (g_output_size g)
    (g_sh_compute g) (g_sh_output g) (g_sh_file g) (g_sh_filename g)
    (g_sh_irradiance g) (g_sh_shader g) v (g_extract_faces g)
    (g_extract_blur g) (g_is_mipmap g) (g_is_mipmap_dir g) (g_prefilter g)
    (g_prefilter_dir g) (g_dfg g) (g_dfg_filename g) (g_dfg_multiscatter g)
    (g_num_samples g) (g_deploy g) (g_deploy_dir g) (g_debug g) (g_mirror
    g).
Definition set_g_extract_faces (v : bool) (g : Globals) : Globals :=
  mkGlobals (g_quiet g) (g_format g) (g_compression g) (g_output_size g)
    (g_sh_compute g) (g_sh_output g) (g_sh_file g) (g_sh_filename g)
    (g_sh_irradiance g) (g_sh_shader g) (g_extract_dir g) v (g_extract_blur
    g) (g_is_mipmap g) (g_is_mipmap_dir g) (g_prefilter g) (g_prefilter_dir
    g) (g_dfg g) (g_dfg_filename g) (g_dfg_multiscatter g) (g_num_samples g)
    (g_deploy g) (g_deploy_dir g) (g_debug g) (g_mirror g).
Definition set_g_extract_blur (v : float) (g : Globals) : Globals :=
  mkGlobals (g_quiet g) (g_format g) (g_compression g) (g_output_size g)
    (g_sh_compute g) (g_sh_output g) (g_sh_file g) (g_sh_filename g)
    (g_sh_irradiance g) (g_sh_shader g) (g_extract_dir g) (g_extract_faces
    g) v (g_is_mipmap g) (g_is_mipmap_dir g) (g_prefilter g)
    (g_prefilter_dir g) (g_dfg g) (g_dfg_filename g) (g_dfg_multiscatter g)
    (g_num_samples g) (g_deploy g) (g_deploy_dir g) (g_debug g) (g_mirror
    g).
Definition set_g_is_mipmap (v : bool) (g : Globals) : Globals :=
  mkGlobals (g_quiet g) (g_format g) (g_compression g) (g_output_size g)
    (g_sh_compute g) (g_sh_output g) (g_sh_file g) (g_sh_filename g)
    (g_sh_irradiance g) (g_sh_shader g) (g_extract_dir g) (g_extract_faces
    g) (g_extract_blur g) v (g_is_mipmap_dir g) (g_prefilter g)
    (g_prefilter_dir g) (g_dfg g) (g_dfg_filename g) (g_dfg_multiscatter g)
    (g_num_samples g) (g_deploy g) (g_deploy_dir g) (g_debug g) (g_mirror
    g).
Definition set_g_is_mipmap_dir (v : string) (g : Globals) : Globals :=
  mkGlobals (g_quiet g) (g_format g) (g_compression g) (g_output_size g)
    (g_sh_compute g) (g_sh_output g) (g_sh_file g) (g_sh_filename g)
    (g_sh_irradiance g) (g_sh_shader g) (g_extract_dir g) (g_extract_faces
    g) (g_extract_blur g) (g_is_mipmap g) v (g_prefilter g) (g_prefilter_dir
    g) (g_dfg g) (g_dfg_filename g) (g_dfg_multiscatter g) (g_num_samples g)
    (g_deploy g) (g_deploy_dir g) (g_debug g) (g_mirror g).
Definition set_g_prefilter (v : bool) (g : Globals) : Globals :=
  mkGlobals (g_quiet g) (g_format g) (g_compression g) (g_output_size g)
    (g_sh_compute g) (g_sh_output g) (g_sh_file g) (g_sh_filename g)
    (g_sh_irradiance g) (g_sh_shader g) (g_extract_dir g) (g_extract_faces
    g) (g_extract_blur g) (g_is_mipmap g) (g_is_mipmap_dir g) v
    (g_prefilter_dir g) (g_dfg g) (g_dfg_filename g) (g_dfg_multiscatter g)
    (g_num_samples g) (g_deploy g) (g_deploy_dir g) (g_debug g) (g_mirror
    g).
Definition set_g_prefilter_dir (v : string) (g : Globals) : Globals :=
  mkGlobals (g_quiet g) (g_format g) (g_compression g) (g_output_size g)
    (g_sh_compute g) (g_sh_output g) (g_sh_file g) (g_sh_filename g)
    (g_sh_irradiance g) (g_sh_shader g) (g_extract_dir g) (g_extract_faces
    g) (g_extract_blur g) (g_is_mipmap g) (g_is_mipmap_dir g) (g_prefilter
    g) v (g_dfg g) (g_dfg_filename g) (g_dfg_multiscatter g) (g_num_samples
    g) (g_deploy g) (g_deploy_dir g) (g_debug g) (g_mirror g).
Definition set_g_dfg (v : bool) (g : Globals) : Globals :=
  mkGlobals (g_quiet g) (g_format g) (g_compression g) (g_output_size g)
    (g_sh_compute g) (g_sh_output g) (g_sh_file g) (g_sh_filename g)
    (g_sh_irradiance g) (g_sh_shader g) (g_extract_dir g) (g_extract_faces
    g) (g_extract_blur g) (g_is_mipmap g) (g_is_mipmap_dir g) (g_prefilter
    g) (g_prefilter_dir g) v (g_dfg_filename g) (g_dfg_multiscatter g)
    (g_num_samples g) (g_deploy g) (g_deploy_dir g) (g_debug g) (g_mirror
    g).
Definition set_g_dfg_filename (v : string) (g : Globals) : Globals :=
  mkGlobals (g_quiet g) (g_format g) (g_compression g) (g_output_size g)
    (g_sh_compute g) (g_sh_output g) (g_sh_file g) (g_sh_filename g)
    (g_sh_irradiance g) (g_sh_shader g) (g_extract_dir g) (g_extract_faces
    g) (g_extract_blur g) (g_is_mipmap g) (g_is_mipmap_dir g) (g_prefilter
    g) (g_prefilter_dir g) (g_dfg g) v (g_dfg_multiscatter g) (g_num_samples
    g) (g_deploy g) (g_deploy_dir g) (g_debug g) (g_mirror g).
Definition set_g_dfg_multiscatter (v : bool) (g : Globals) : Globals :=
  mkGlobals (g_quiet g) (g_format g) (g_compression g) (g_output_size g)
    (g_sh_compute g) (g_sh_output g) (g_sh_file g) (g_sh_filename g)
    (g_sh_irradiance g) (g_sh_shader g) (g_extract_dir g) (g_extract_faces
    g) (g_extract_blur g) (g_is_mipmap g) (g_is_mipmap_dir g) (g_prefilter
    g) (g_prefilter_dir g) (g_dfg g) (g_dfg_filename g) v (g_num_samples g)
    (g_deploy g) (g_deploy_dir g) (g_debug g) (g_mirror g).
Definition set_g_num_samples (v : Z) (g : Globals) : Globals :=
  mkGlobals (g_quiet g) (g_format g) (g_compression g) (g_output_size g)
    (g_sh_compute g) (g_sh_output g) (g_sh_file g) (g_sh_filename g)
    (g_sh_irradiance g) (g_sh_shader g) (g_extract_dir g) (g_extract_faces
    g) (g_extract_blur g) (g_is_mipmap g) (g_is_mipmap_dir g) (g_prefilter
    g) (g_prefilter_dir g) (g_dfg g) (g_dfg_filename g) (g_dfg_multiscatter
    g) v (g_deploy g) (g_deploy_dir g) (g_debug g) (g_mirror g).
Definition set_g_deploy (v : bool) (g : Globals) : Globals :=
  mkGlobals (g_quiet g) (g_format g) (g_compression g) (g_output_size g)
    (g_sh_compute g) (g_sh_output g) (g_sh_file g) (g_sh_filename g)
    (g_sh_irradiance g) (g_sh_shader g) (g_extract_dir g) (g_extract_faces
    g) (g_extract_blur g) (g_is_mipmap g) (g_is_mipmap_dir g) (g_prefilter
    g) (g_prefilter_dir g) (g_dfg g) (g_dfg_filename g) (g_dfg_multiscatter
    g) (g_num_samples g) v (g_deploy_dir g) (g_debug g) (g_mirror g).
Definition set_g_deploy_dir (v : string) (g : Globals) : Globals :=
  mkGlobals (g_quiet g) (g_format g) (g_compression g) (g_output_size g)
    (g_sh_compute g) (g_sh_output g) (g_sh_file g) (g_sh_filename g)
    (g_sh_irradiance g) (g_sh_shader g) (g_extract_dir g) (g_extract_faces
    g) (g_extract_blur g) (g_is_mipmap g) (g_is_mipmap_dir g) (g_prefilter
    g) (g_prefilter_dir g) (g_dfg g) (g_dfg_filename g) (g_dfg_multiscatter
    g) (g_num_samples g) (g_deploy g) v (g_debug g) (g_mirror g).
Definition set_g_debug (v : bool) (g : Globals) : Globals :=
  mkGlobals (g_quiet g) (g_format g) (g_compression g) (g_output_size g)
    (g_sh_compute g) (g_sh_output g) (g_sh_file g) (g_sh_filename g)
    (g_sh_irradiance g) (g_sh_shader g) (g_extract_dir g) (g_extract_faces
    g) (g_extract_blur g) (g_is_mipmap g) (g_is_mipmap_dir g) (g_prefilter
    g) (g_prefilter_dir g) (g_dfg g) (g_dfg_filename g) (g_dfg_multiscatter
    g) (g_num_samples g) (g_deploy g) (g_deploy_dir g) v (g_mirror g).
Definition set_g_mirror (v : bool) (g : Globals) : Globals :=
  mkGlobals (g_quiet g) (g_format g) (g_compression g) (g_output_size g)
    (g_sh_compute g) (g_sh_output g) (g_sh_file g) (g_sh_filename g)
    (g_sh_irradiance g) (g_sh_shader g) (g_extract_dir g) (g_extract_faces
    g) (g_extract_blur g) (g_is_mipmap g) (g_is_mipmap_dir g) (g_prefilter
    g) (g_prefilter_dir g) (g_dfg g) (g_dfg_filename g) (g_dfg_multiscatter
    g) (g_num_samples g) (g_deploy g) (g_deploy_dir g) (g_debug g) v.

(** The options [getopt_long] can return for [OPTSTR] and [OPTIONS], named
    after the long option; [opt_unknown] is the ['?'] of an unknown or
    malformed option, which takes the [default:] branch. *)
Inductive opt :=
| opt_help            (* 'h' *)
| opt_license         (* 'l' *)
| opt_quiet           (* 'q' *)
| opt_format          (* 'f' *)
| opt_compression     (* 'c' *)
| opt_size            (* 's' *)
| opt_extract         (* 'e' *)
| opt_extract_blur    (* 'r' *)
| opt_sh              (* 'z' *)
| opt_sh_output       (* 'o' *)
| opt_sh_irradiance   (* 'i' *)
| opt_sh_shader       (* 'b' *)
| opt_ibl_is_mipmap   (* 'y' *)
| opt_ibl_ld          (* 'p' *)
| opt_ibl_dfg         (* 'a' *)
| opt_ibl_dfg_multiscatter (* 'u' *)
| opt_ibl_samples     (* 'k' *)
| opt_deploy          (* 'x' *)
| opt_mirror          (* 'm' *)
| opt_debug           (* 'd' *)
| opt_unknown.        (* '?' *)

Definition opt_eqb (a b : opt) : bool :=
  match a, b with
  | opt_help, opt_help | opt_license, opt_license | opt_quiet, opt_quiet
  | opt_format, opt_format | opt_compression, opt_compression
  | opt_size, opt_size | opt_extract, opt_extract
  | opt_extract_blur, opt_extract_blur | opt_sh, opt_sh
  | opt_sh_output, opt_sh_output | opt_sh_irradiance, opt_sh_irradiance
  | opt_sh_shader, opt_sh_shader | opt_ibl_is_mipmap, opt_ibl_is_mipmap
  | opt_ibl_ld, opt_ibl_ld | opt_ibl_dfg, opt_ibl_dfg
  | opt_ibl_dfg_multiscatter, opt_ibl_dfg_multiscatter
  | opt_ibl_samples, opt_ibl_samples | opt_deploy, opt_deploy
  | opt_mirror, opt_mirror | opt_debug, opt_debug
  | opt_unknown, opt_unknown => true
  | _, _ => false
  end.

(** One iteration of the [getopt_long] loop: the option and its [optarg]. *)
Definition parsed_option : Type := opt * option string.

(** How a run of a piece of the program ends. *)
Inductive result (A : Type) :=
| Ret (a : A)               (* falls through, or [return a] *)
| Exit (code : Z)           (* [exit(code)] *)
| Uncaught (e : exception)  (* an exception nobody catches *)
| Undefined.                (* undefined behaviour *)
Arguments Ret {A}.
Arguments Exit {A}.
Arguments Uncaught {A}.
Arguments Undefined {A}.

(** ** The driver *)

Section Driver.

Set Default Proof Using "Type".

Variable T : Type.

(** A decoded image, as the driver looks at it. *)
Record Image := mkImage {
  isValid : bool;
  getChannelsCount : Z;
  getWidth : Z;
  getHeight : Z;
  imageData : Z -> Z -> T
}.

(** What a run does that can be seen from outside: text on the two output
    streams and the calls into the libraries, in program order. *)
Inductive event :=
| Cout (s : string)
| Cerr (s : string)
| PrintUsage
| PrintLicense
| Call_iblLutDfg (filename : string) (size : Z) (multiscatter : bool)
| Call_decode (path : string)
| Call_clamp
| Call_create (dim : Z) (horizontal : option bool)
| Call_copyImage
| Call_equirectangularToCubemap
| Call_generateUVGrid (p : Z)
| Call_brdf (linear_roughness : float)
| Call_makeSeamless
| Call_downsample
| Call_mirrorCubemap
| Call_sphericalHarmonics (iname : string) (cm : Cubemap T)
| Call_iblMipmapPrefilter (iname : string) (levels : list (Cubemap T))
                          (dir : string)
| Call_iblRoughnessPrefilter (iname : string) (levels : list (Cubemap T))
                             (dir : string)
| Call_roughnessFilter (dim : Z) (levels : list (Cubemap T))
                       (linear_roughness : float) (num_samples : Z)
| Call_extractCubemapFaces (iname : string) (cm : Cubemap T) (dir : string).

(** A computation: the events it produced and how it ended. *)
Definition M (A : Type) : Type := list event * result A.

Definition ret {A} (a : A) : M A := ([], Ret a).

Definition bind {A B} (m : M A) (k : A -> M B) : M B :=
  match m with
  | (l, Ret a) => let '(l', r) := k a in (l ++ l', r)
  | (l, Exit c) => (l, Exit c)
  | (l, Uncaught e) => (l, Uncaught e)
  | (l, Undefined) => (l, Undefined)
  end.

Definition emit (e : event) : M unit := ([e], Ret tt).
Definition exit {A} (code : Z) : M A := ([], Exit code).
Definition throw {A} (e : exception) : M A := ([], Uncaught e).
Definition undefined {A} : M A := ([], Undefined).

Definition events {A} (m : M A) : list event := fst m.
Definition outcome {A} (m : M A) : result A := snd m.

Notation "x <- m ;; k" := (bind m (fun x => k))
  (at level 61, m at next level, right associativity).
Notation "m ;; k" := (bind m (fun _ => k))
  (at level 61, right associativity).

(** A conversion whose exception is not caught. *)
Definition unguarded {A} (c : conv A) : M A :=
  match c with
  | Value a => ret a
  | Raise e => throw e
  end.

(** [if (!g_quiet) std::cout << s << std::endl;] *)
Definition say (g : Globals) (s : string) : M unit :=
  if g_quiet g then ret tt else emit (Cout s).

(** *** Collaborators outside the driver file *)

(** [isPOT] of [utilities.h]. *)
Variable isPOT : Z -> bool.
(** [std::stod]. *)
Variable stod : string -> conv float.
(** [utils::Path]. *)
Variable getExtension : string -> string.
Variable getNameWithoutExtension : string -> string.
Variable path_concat : string -> string -> string.
Variable path_exists : string -> bool.
(** [ImageDecoder::decode] on the file at a path, and [CubemapUtils::clamp]. *)
Variable decode : string -> Image.
Variable clamp : Image -> Image.
(** The cube adjacency and corner rule of [makeSeamless]. *)
Variable neighbour : Face -> Side -> Face * Side * bool.
Variable corner_rule : T -> T -> T -> T.
(** The content of freshly created storage. *)
Variable blank : T.
(** The texels written by each content-writing operation into its
    destination, given what it reads. *)
Variable copyImage_texels : Cubemap T -> Image -> texels T.
Variable equirectangular_texels : Cubemap T -> Image -> texels T.
Variable uvgrid_texels : Cubemap T -> Z -> texels T.
Variable brdf_texels : Cubemap T -> float -> texels T.
Variable mirror_texels : Cubemap T -> Cubemap T -> texels T.
Variable downsample_texels : Cubemap T -> Cubemap T -> texels T.
Variable importance_sample_texels :
  Cubemap T -> list (Cubemap T) -> float -> Z -> texels T.
(** [sq(p / std::log2(dim))] in double precision. *)
Variable brdf_roughness : Z -> Z -> float.

(** *** handleCommandLineArgments *)

Record parse_state := mkParse {
  globals : Globals;
  num_sh_bands : Z;
  format_specified : bool
}.

Definition with_globals (f : Globals -> Globals) (st : parse_state)
  : parse_state :=
  mkParse (f (globals st)) (num_sh_bands st) (format_specified st).

(** [if (arg == name) { g_format = fmt; format_specified = true; }] *)
Definition select_format (arg name : string) (fmt : Format)
           (st : parse_state) : parse_state :=
  if String.eqb arg name
  then mkParse (set_g_format fmt (globals st)) (num_sh_bands st) true
  else st.

(** [std::string arg(optarg ? optarg : "")]. *)
Definition arg_of (optarg : option string) : string :=
  match optarg with Some a => a | None => ""%string end.

(** The body of the [switch] for one option. *)
Definition handle_option (st : parse_state) (o : opt)
           (optarg : option string) : M parse_state :=
  let arg := arg_of optarg in
  match o with
  | opt_unknown | opt_help => emit PrintUsage ;; exit 0
  | opt_license => emit PrintLicense ;; exit 0
  | opt_quiet => ret (with_globals (set_g_quiet true) st)
  | opt_format =>
      let st := select_format arg "png" PNG st in
      let st := select_format arg "hdr" HDR st in
      let st := select_format arg "rgbm" RGBM st in
      let st := select_format arg "exr" EXR st in
      let st := select_format arg "psd" PSD st in
      let st := select_format arg "dds" DDS_LINEAR st in
      ret st
  | opt_compression => ret (with_globals (set_g_compression arg) st)
  | opt_size =>
      v <- unguarded (stoul arg) ;;
      let st := with_globals (set_g_output_size v) st in
      if negb (isPOT v)
      then emit (Cerr "output size must be a power of two") ;; exit 0
      else ret st
  | opt_sh =>
      let st := with_globals (set_g_sh_compute 1) st in
      let st := with_globals (set_g_sh_output true) st in
      match stoi arg with
      | Value v => ret (mkParse (globals st) v (format_specified st))
      | Raise invalid_argument => ret st    (* keep default value *)
      | Raise e => throw e
      end
  | opt_sh_output =>
      let st := with_globals (set_g_sh_compute 1) st in
      let st := with_globals (set_g_sh_output true) st in
      let st := with_globals (set_g_sh_file SH_CROSS) st in
      let st := with_globals (set_g_sh_filename arg) st in
      if String.eqb (getExtension arg) "txt"
      then ret (with_globals (set_g_sh_file SH_TEXT) st)
      else ret st
  | opt_sh_irradiance =>
      let st := with_globals (set_g_sh_compute 1) st in
      ret (with_globals (set_g_sh_irradiance true) st)
  | opt_sh_shader =>
      let st := with_globals (set_g_sh_compute 1) st in
      let st := with_globals (set_g_sh_irradiance true) st in
      ret (with_globals (set_g_sh_shader true) st)
  | opt_extract =>
      let st := with_globals (set_g_extract_dir arg) st in
      ret (with_globals (set_g_extract_faces true) st)
  | opt_extract_blur =>
      b <- unguarded (stod arg) ;;
      let st := with_globals (set_g_extract_blur b) st in
      if PrimFloat.ltb b 0 || PrimFloat.ltb 1 b
      then emit (Cerr
             "roughness (blur) parameter must be between 0.0 and 1.0") ;;
           exit 0
      else ret st
  | opt_ibl_is_mipmap =>
      let st := with_globals (set_g_is_mipmap true) st in
      ret (with_globals (set_g_is_mipmap_dir arg) st)
  | opt_ibl_ld =>
      let st := with_globals (set_g_prefilter true) st in
      ret (with_globals (set_g_prefilter_dir arg) st)
  | opt_ibl_dfg =>
      let st := with_globals (set_g_dfg true) st in
      ret (with_globals (set_g_dfg_filename arg) st)
  | opt_ibl_dfg_multiscatter =>
      ret (with_globals (set_g_dfg_multiscatter true) st)
  | opt_ibl_samples =>
      v <- unguarded (stoi arg) ;;
      ret (with_globals (set_g_num_samples (size_t v)) st)
  | opt_deploy =>
      let st := with_globals (set_g_deploy true) st in
      ret (with_globals (set_g_deploy_dir arg) st)
  | opt_debug => ret (with_globals (set_g_debug true) st)
  | opt_mirror => ret (with_globals (set_g_mirror true) st)
  end.

(** The [while ((opt = getopt_long(...)) >= 0)] loop over the options of
    the command line. *)
Fixpoint parse_loop (opts : list parsed_option) (st : parse_state)
  : M parse_state :=
  match opts with
  | [] => ret st
  | (o, optarg) :: rest =>
      st' <- handle_option st o optarg ;;
      parse_loop rest st'
  end.

(** What follows the loop. *)
Definition finish_options (st : parse_state) : Globals :=
  let g := globals st in
  let g := if g_deploy g && negb (format_specified st)
           then set_g_format RGBM g else g in
  if negb (num_sh_bands st =? 0) && negb (g_sh_compute g =? 0)
  then set_g_sh_compute (size_t (num_sh_bands st)) g
  else g.

(** [handleCommandLineArgments], from the globals as they are at program
    start; the non-option arguments are what [optind] leaves to [main]. *)
Definition handleCommandLineArgments (g0 : Globals)
           (opts : list parsed_option) : M Globals :=
  st <- parse_loop opts (mkParse g0 3 false) ;;
  ret (finish_options st).

(** *** The cubemap library, as the driver calls it *)

(** [CubemapUtils::create(image, dim[, horizontal])]. *)
Definition create (dim : Z) (horizontal : option bool) : M (Cubemap T) :=
  emit (Call_create dim horizontal) ;;
  ret (mkCubemap dim (fun _ _ _ => blank)).

(** [cml.makeSeamless()]. *)
Definition call_makeSeamless (cml : Cubemap T) : M (Cubemap T) :=
  emit Call_makeSeamless ;;
  ret (makeSeamless neighbour corner_rule cml).

(** One step of the mip chain: the next level is half the size, written
    by the box filter from the level above and made seamless. *)
Definition next_level (src : Cubemap T) : Cubemap T :=
  let dst := mkCubemap (getDimensions src / 2) (fun _ _ _ => blank) in
  makeSeamless neighbour corner_rule
    (with_texels dst (downsample_texels dst src)).

Equations? mip_levels (src : Cubemap T) : list (Cubemap T)
  by wf (Z.to_nat (getDimensions src)) lt :=
  mip_levels src with Z_lt_dec 1 (getDimensions src) => {
    | left _ := next_level src :: mip_levels (next_level src)
    | right _ := [] }.
Proof.
  simpl. apply Z2Nat.inj_lt; try lia.
  - apply Z.div_pos; lia.
  - apply Z.div_lt; lia.
Qed.

Definition level_events (c : Cubemap T) : list event :=
  [Call_create (getDimensions c) None; Call_downsample; Call_makeSeamless].

(** Modelled from the spec: [generateMipmaps(levels, images)] (defined
    outside the driver file).  Starting from level 0 it halves the
    dimension, box-filtering each level from the one before and making it
    seamless, until the dimension has reached 1. *)
Definition generateMipmaps (levels : list (Cubemap T))
  : M (list (Cubemap T)) :=
  match levels with
  | [] => undefined
  | base :: _ =>
      let more := mip_levels base in
      (flat_map level_events more, Ret (levels ++ more))
  end.

(** Modelled from the spec: [CubemapIBL::roughnessFilter] (the cubemap
    library is not part of the driver file).  Roughness 0 short-circuits to
    a direct copy of level 0; any other roughness runs the importance
    sampling loop. *)
Definition roughnessFilter (dst : Cubemap T) (levels : list (Cubemap T))
           (linearRoughness : float) (sampleCount : Z) : Cubemap T :=
  if PrimFloat.eqb linearRoughness 0 then
    match levels with
    | base :: _ => with_texels dst (texelAt base)
    | [] => dst
    end
  else
    with_texels dst
      (importance_sample_texels dst levels linearRoughness sampleCount).

(** *** main *)

Definition is_cross (width height : Z) : bool :=
  (isPOT width && (size_t (width * 3) =? size_t (height * 4))) ||
  (isPOT height && (size_t (height * 3) =? size_t (width * 4))).

Definition is_equirectangular (width height : Z) : bool :=
  width =? size_t (2 * height).

(** [g_output_size ? g_output_size : dflt]. *)
Definition output_size_or (g : Globals) (dflt : Z) : Z :=
  if g_output_size g =? 0 then dflt else g_output_size g.

(** The [if (g_deploy)] block. *)
Definition apply_deploy (iname : string) (g : Globals) : Globals :=
  if g_deploy g then
    let out_dir :=
      path_concat (g_deploy_dir g) (getNameWithoutExtension iname) in
    let g := set_g_sh_compute 3 g in
    let g := set_g_sh_shader true g in
    let g := set_g_sh_irradiance true g in
    let g := set_g_sh_filename (path_concat out_dir "sh.txt") g in
    let g := set_g_sh_file SH_TEXT g in
    let g := set_g_sh_output true g in
    let g := set_g_extract_dir (g_deploy_dir g) g in
    let g := set_g_extract_faces true g in
    let g := set_g_prefilter true g in
    set_g_prefilter_dir (g_deploy_dir g) g
  else g.

(** The [if (g_debug)] block. *)
Definition apply_debug (g : Globals) : Globals :=
  if g_debug g then
    if g_prefilter g && negb (g_is_mipmap g) then
      set_g_is_mipmap_dir (g_prefilter_dir g) (set_g_is_mipmap true g)
    else g
  else g.

(** The [if (iname.exists())] branch: decode and project the input. *)
Definition load_image (g : Globals) (iname : string) : M (Cubemap T) :=
  say g "Decoding image..." ;;
  emit (Call_decode iname) ;;
  let inputImage := decode iname in
  if negb (isValid inputImage) then
    emit (Cerr "Unsupported image format!") ;; exit 0
  else if negb (getChannelsCount inputImage =? 3) then
    emit (Cerr ("Input image must be RGB (3 channels)! This image has "
                ++ string_of_Z (getChannelsCount inputImage)
                ++ " channels.")) ;;
    exit 0
  else
    emit Call_clamp ;;
    let inputImage := clamp inputImage in
    let width := size_t (getWidth inputImage) in
    let height := size_t (getHeight inputImage) in
    if is_cross width height then
      let isHorizontal := width >? height in
      let dim := Z.max height width / 4 in
      say g "Loading cross... " ;;
      cml <- create dim (Some isHorizontal) ;;
      emit Call_copyImage ;;
      call_makeSeamless (with_texels cml (copyImage_texels cml inputImage))
    else if is_equirectangular width height then
      let dim := output_size_or g 256 in
      say g "Converting equirectangular image... " ;;
      cml <- create dim None ;;
      emit Call_equirectangularToCubemap ;;
      call_makeSeamless
        (with_texels cml (equirectangular_texels cml inputImage))
    else
      emit (Cerr ("Aspect ratio not supported: " ++ string_of_Z width
                  ++ "x" ++ string_of_Z height)) ;;
      emit (Cerr "Supported aspect ratios:") ;;
      emit (Cerr "  2:1, lat/long or equirectangular") ;;
      emit (Cerr "  3:4, vertical cross (height must be power of two)") ;;
      emit (Cerr "  4:3, horizontal cross (width must be power of two)") ;;
      exit 0.

(** The [else] branch: a procedural cubemap. *)
Definition generate_image (g : Globals) (iname : string) : M (Cubemap T) :=
  say g "Generating image..." ;;
  let dim := output_size_or g 256 in
  cml <- create dim None ;;
  let name := getNameWithoutExtension iname in
  cml <- match sscanf_u "uv" name with
         | Some p =>
             emit (Call_generateUVGrid p) ;;
             ret (with_texels cml (uvgrid_texels cml p))
         | None =>
             match sscanf_u "brdf" name with
             | Some p =>
                 let linear_roughness := brdf_roughness p dim in
                 emit (Call_brdf linear_roughness) ;;
                 ret (with_texels cml (brdf_texels cml linear_roughness))
             | None =>
                 emit (Call_generateUVGrid 1) ;;
                 ret (with_texels cml (uvgrid_texels cml 1))
             end
         end ;;
  call_makeSeamless cml.

Definition load_base (g : Globals) (iname : string) : M (Cubemap T) :=
  if path_exists iname then load_image g iname else generate_image g iname.

(** The body of the [for (auto& level : levels)] loop of the mirror block,
    over all levels. *)
Fixpoint mirror_levels (levels : list (Cubemap T)) : M (list (Cubemap T)) :=
  match levels with
  | [] => ret []
  | level :: rest =>
      cml <- create (getDimensions level) None ;;
      emit Call_mirrorCubemap ;;
      cml <- call_makeSeamless (with_texels cml (mirror_texels cml level)) ;;
      mirrored <- mirror_levels rest ;;
      ret (cml :: mirrored)
  end.

Definition mirror_stage (g : Globals) (levels : list (Cubemap T))
  : M (list (Cubemap T)) :=
  if g_mirror g then say g "Mirroring..." ;; mirror_levels levels
  else ret levels.

(** [levels[0]]. *)
Definition level0 (levels : list (Cubemap T)) : M (Cubemap T) :=
  match levels with
  | cm :: _ => ret cm
  | [] => undefined
  end.

Definition sh_stage (g : Globals) (iname : string)
           (levels : list (Cubemap T)) : M unit :=
  if negb (g_sh_compute g =? 0) then
    say g "Spherical harmonics..." ;;
    cm <- level0 levels ;;
    emit (Call_sphericalHarmonics iname cm)
  else ret tt.

Definition is_mipmap_stage (g : Globals) (iname : string)
           (levels : list (Cubemap T)) : M unit :=
  if g_is_mipmap g then
    say g "IBL mipmaps for prefiltered importance sampling..." ;;
    emit (Call_iblMipmapPrefilter iname levels (g_is_mipmap_dir g))
  else ret tt.

Definition prefilter_stage (g : Globals) (iname : string)
           (levels : list (Cubemap T)) : M unit :=
  if g_prefilter g then
    say g "IBL prefiltering..." ;;
    emit (Call_iblRoughnessPrefilter iname levels (g_prefilter_dir g))
  else ret tt.

Definition extract_stage (g : Globals) (iname : string)
           (levels : list (Cubemap T)) : M unit :=
  if g_extract_faces g then
    cm <- level0 levels ;;
    if negb (PrimFloat.eqb (g_extract_blur g) 0) then
      say g "Blurring..." ;;
      let linear_roughness :=
        PrimFloat.mul (g_extract_blur g) (g_extract_blur g) in
      let dim := output_size_or g (getDimensions cm) in
      blurred <- create dim None ;;
      emit (Call_roughnessFilter dim levels linear_roughness
                                 (g_num_samples g)) ;;
      let blurred :=
        roughnessFilter blurred levels linear_roughness (g_num_samples g) in
      say g "Extract faces..." ;;
      emit (Call_extractCubemapFaces iname blurred (g_extract_dir g))
    else
      say g "Extract faces..." ;;
      emit (Call_extractCubemapFaces iname cm (g_extract_dir g))
  else ret tt.

(** [main] from the line that reads [argv[option_index]] on. *)
Definition run_pipeline (g : Globals) (iname : string) : M Z :=
  let g := apply_deploy iname g in
  let g := apply_debug g in
  base <- load_base g iname ;;
  levels <- generateMipmaps [base] ;;
  levels <- mirror_stage g levels ;;
  sh_stage g iname levels ;;
  is_mipmap_stage g iname levels ;;
  prefilter_stage g iname levels ;;
  extract_stage g iname levels ;;
  ret 0.

(** The [if (g_dfg)] block up to the call of [iblLutDfg]; its early
    [return 0] is taken in [main]. *)
Definition dfg_stage (g : Globals) : M unit :=
  if g_dfg g then
    say g "Generating IBL DFG LUT..." ;;
    let size := output_size_or g 128 in
    emit (Call_iblLutDfg (g_dfg_filename g) size (g_dfg_multiscatter g))
  else ret tt.

(** [main]: [g0] are the globals at program start, [opts] the options of
    the command line in order and [args] its non-option arguments. *)
Definition main (g0 : Globals) (opts : list parsed_option)
           (args : list string) : M Z :=
  g <- handleCommandLineArgments g0 opts ;;
  let num_args := Z.of_nat (List.length args) in
  if negb (g_dfg g) && (num_args <? 1) then
    emit PrintUsage ;; ret 1
  else
    dfg_stage g ;;
    if g_dfg g && (num_args <? 1) then ret 0
    else
      match args with
      | command :: _ => run_pipeline g command
      | [] => undefined
      end.


(** ** Properties of the texel store and of makeSeamless *)

Lemma Face_eqb_spec a b : reflect (a = b) (Face_eqb a b).
Proof. destruct a, b; constructor; congruence. Qed.

Lemma pos_eqb_spec p q : reflect (p = q) (pos_eqb p q).
Proof.
  destruct p as [[f x] y], q as [[g u] v]; unfold pos_eqb.
  destruct (Face_eqb_spec f g); simpl; [|constructor; congruence].
  destruct (Z.eqb_spec x u); simpl; [|constructor; congruence].
  destruct (Z.eqb_spec y v); constructor; congruence.
Qed.

Lemma pos_eq_dec (p q : pos) : {p = q} + {p <> q}.
Proof. destruct (pos_eqb_spec p q); [left | right]; assumption. Qed.

Lemma in_Zrange n i : In i (Zrange n) <-> 0 <= i < n.
Proof.
  unfold Zrange. rewrite in_map_iff. split.
  - intros [k [<- Hk]]. apply in_seq in Hk. lia.
  - intros H. exists (Z.to_nat i). split; [lia|]. apply in_seq. lia.
Qed.

Lemma read_write_same p v (t : texels T) : read (write p v t) p = v.
Proof.
  destruct p as [[f x] y]. unfold read, write.
  destruct (pos_eqb_spec (f, x, y) (f, x, y)); congruence.
Qed.

Lemma read_write_other p q v (t : texels T) :
  p <> q -> read (write p v t) q = read t q.
Proof.
  destruct q as [[f x] y]. unfold read, write. intros H.
  destruct (pos_eqb_spec p (f, x, y)); congruence.
Qed.

Lemma run_copies_app a b (t : texels T) :
  run_copies (a ++ b) t = run_copies b (run_copies a t).
Proof. unfold run_copies. apply fold_left_app. Qed.

(** A position no copy writes to keeps its texel. *)
Lemma run_copies_frame ops : forall (t : texels T) q,
  (forall op, In op ops -> fst op <> q) ->
  read (run_copies ops t) q = read t q.
Proof.
  induction ops as [|a r IH]; intros t q H; [reflexivity|].
  change (run_copies (a :: r) t)
    with (run_copies r (write (fst a) (read t (snd a)) t)).
  rewrite IH by (intros op Hop; apply H; right; exact Hop).
  apply read_write_other. apply H. left. reflexivity.
Qed.

(** When no source is ever written and a destination has one source, each
    destination ends up with the texel its source had at the start. *)
Lemma run_copies_spec ops : forall (t : texels T),
  (forall op op', In op ops -> In op' ops -> fst op' <> snd op) ->
  (forall op op', In op ops -> In op' ops ->
                  fst op = fst op' -> snd op = snd op') ->
  forall op, In op ops ->
    read (run_copies ops t) (fst op) = read t (snd op).
Proof.
  induction ops as [|a r IH]; intros t Hsrc Hfun op Hin; [destruct Hin|].
  change (run_copies (a :: r) t)
    with (run_copies r (write (fst a) (read t (snd a)) t)).
  assert (Hr : forall o, In o r ->
               read (run_copies r (write (fst a) (read t (snd a)) t)) (fst o)
               = read t (snd o)).
  { intros o Ho. rewrite IH; auto.
    - apply read_write_other. apply Hsrc; [right; exact Ho | left; reflexivity].
    - intros o1 o2 H1 H2. apply Hsrc; right; assumption.
    - intros o1 o2 H1 H2. apply Hfun; right; assumption. }
  destruct Hin as [<- | Hin]; [|apply Hr; exact Hin].
  destruct (in_dec pos_eq_dec (fst a) (map fst r)) as [Hd | Hd].
  - apply in_map_iff in Hd. destruct Hd as [o [Ho1 Ho2]].
    transitivity (read t (snd o)).
    + rewrite <- (Hr o Ho2). f_equal. symmetry. exact Ho1.
    + f_equal. apply Hfun; [right; exact Ho2 | left; reflexivity | exact Ho1].
  - rewrite run_copies_frame.
    + apply read_write_same.
    + intros o Ho Heq. apply Hd. apply in_map_iff. exists o. split; assumption.
Qed.

(** All the copies of the stitching phase of [makeSeamless], in order. *)
Definition seam_ops (dim : Z) : list (pos * pos) :=
  flat_map (fun f => flat_map (stitch_ops neighbour dim f) all_sides)
           all_faces.

Lemma stitches_as_copies dim (t : texels T) :
  fold_left (stitch_face neighbour dim) all_faces t
  = run_copies (seam_ops dim) t.
Proof.
  unfold seam_ops, all_faces, all_sides, stitch_face, stitch. simpl.
  rewrite !app_nil_r, !run_copies_app. reflexivity.
Qed.

Lemma in_seam_ops dim op :
  In op (seam_ops dim) <->
  exists f s i, 0 <= i < dim /\
                op = (border_pos dim f s i, source_pos neighbour dim f s i).
Proof.
  unfold seam_ops. rewrite in_flat_map. split.
  - intros [f [_ H]]. apply in_flat_map in H. destruct H as [s [_ H]].
    unfold stitch_ops in H. apply in_map_iff in H.
    destruct H as [i [<- Hi]]. apply in_Zrange in Hi.
    exists f, s, i. split; [exact Hi | reflexivity].
  - intros [f [s [i [Hi ->]]]]. exists f. split.
    + destruct f; simpl; auto 10.
    + apply in_flat_map. exists s. split.
      * destruct s; simpl; auto 10.
      * unfold stitch_ops. apply in_map_iff. exists i.
        split; [reflexivity | apply in_Zrange; exact Hi].
Qed.

Definition interior_pos (dim : Z) (p : pos) : Prop :=
  let '(_, x, y) := p in interior dim x y.

Lemma border_pos_not_interior dim f s i :
  ~ interior_pos dim (border_pos dim f s i).
Proof. destruct s; unfold border_pos, interior_pos, interior; simpl; lia. Qed.

Lemma source_pos_interior dim f s i :
  0 <= i < dim -> interior_pos dim (source_pos neighbour dim f s i).
Proof.
  intros Hi. unfold source_pos. destruct (neighbour f s) as [[nf ns] rev].
  destruct ns, rev;
    unfold edge_pos, interior_pos, interior, permute; simpl; lia.
Qed.

Lemma border_pos_inj dim f s i g r j :
  0 <= i < dim -> 0 <= j < dim ->
  border_pos dim f s i = border_pos dim g r j ->
  f = g /\ s = r /\ i = j.
Proof.
  intros Hi Hj. destruct s, r; unfold border_pos; simpl; intros H;
    inversion H; subst; repeat split; try reflexivity; lia.
Qed.

(** After the stitching phase every ring texel of an edge holds what the
    interior texel across the edge held before, and nothing else moved. *)
Lemma stitched_border dim (t : texels T) f s i :
  0 <= i < dim ->
  read (run_copies (seam_ops dim) t) (border_pos dim f s i)
  = read t (source_pos neighbour dim f s i).
Proof.
  intros Hi.
  apply (run_copies_spec (seam_ops dim) t) with
    (op := (border_pos dim f s i, source_pos neighbour dim f s i)).
  - intros op op' H H'. apply in_seam_ops in H, H'.
    destruct H as [f1 [s1 [i1 [Hi1 ->]]]].
    destruct H' as [f2 [s2 [i2 [Hi2 ->]]]]. simpl. intros E.
    apply (border_pos_not_interior dim f2 s2 i2). rewrite E.
    apply source_pos_interior. exact Hi1.
  - intros op op' H H'. apply in_seam_ops in H, H'.
    destruct H as [f1 [s1 [i1 [Hi1 ->]]]].
    destruct H' as [f2 [s2 [i2 [Hi2 ->]]]]. simpl. intros E.
    apply border_pos_inj in E; try assumption.
    destruct E as [-> [-> ->]]. reflexivity.
  - apply in_seam_ops. exists f, s, i. split; [exact Hi | reflexivity].
Qed.

Lemma stitched_interior dim (t : texels T) p :
  interior_pos dim p -> read (run_copies (seam_ops dim) t) p = read t p.
Proof.
  intros Hp. apply run_copies_frame. intros op H E.
  apply in_seam_ops in H. destruct H as [f [s [i [Hi ->]]]].
  simpl in E. subst p. exact (border_pos_not_interior dim f s i Hp).
Qed.

Definition is_corner (dim x y : Z) : Prop :=
  (x = -1 \/ x = dim) /\ (y = -1 \/ y = dim).

Ltac pos_cases :=
  repeat match goal with
  | |- context [pos_eqb ?p ?q] =>
      let E := fresh "E" in
      destruct (pos_eqb_spec p q) as [E | E];
      [ inversion E; subst; try lia | ]
  end.

Lemma corners_frame dim (t : texels T) f g x y :
  ~ is_corner dim x y -> corners corner_rule dim t f g x y = t g x y.
Proof.
  unfold is_corner, corners, write. intros H. cbv zeta.
  pos_cases; try reflexivity; exfalso; apply H; lia.
Qed.

Lemma corners_other_face dim (t : texels T) f g x y :
  f <> g -> corners corner_rule dim t f g x y = t g x y.
Proof.
  unfold corners, write. intros H. cbv zeta.
  pos_cases; try reflexivity; congruence.
Qed.

Lemma corners_establish dim (t : texels T) f :
  1 <= dim ->
  corner_equations corner_rule dim (corners corner_rule dim t f) f.
Proof.
  intros Hd. unfold corner_equations. cbv zeta.
  repeat match goal with
  | |- context [corners corner_rule dim t f f ?x ?y] =>
      rewrite (corners_frame dim t f f x y) by (unfold is_corner; lia)
  end.
  unfold corners, write. cbv zeta.
  repeat split; pos_cases; try reflexivity; try congruence.
Qed.

Lemma corners_preserve dim (t : texels T) f g :
  g <> f ->
  corner_equations corner_rule dim t f ->
  corner_equations corner_rule dim (corners corner_rule dim t g) f.
Proof.
  intros Hg H. unfold corner_equations in *. cbv zeta in *.
  rewrite !(corners_other_face dim t g f) by exact Hg. exact H.
Qed.

Lemma corners_fold_frame dim fs : forall (t : texels T) g x y,
  ~ is_corner dim x y ->
  fold_left (corners corner_rule dim) fs t g x y = t g x y.
Proof.
  induction fs as [|f r IH]; intros t g x y H; simpl; [reflexivity|].
  rewrite IH by exact H. apply corners_frame. exact H.
Qed.

Lemma corners_fold_resolved dim fs : forall (t : texels T) f,
  1 <= dim ->
  In f fs \/ corner_equations corner_rule dim t f ->
  corner_equations corner_rule dim
    (fold_left (corners corner_rule dim) fs t) f.
Proof.
  induction fs as [|g r IH]; intros t f Hd H; simpl.
  - destruct H as [[] | H]. exact H.
  - apply IH; [exact Hd|].
    destruct (Face_eqb_spec g f) as [-> | Hne].
    + right. apply corners_establish. exact Hd.
    + destruct H as [[E | H] | H]; [congruence | left; exact H |].
      right. apply corners_preserve; assumption.
Qed.

(** The one-texel ring around a face of dimension [dim]. *)
Definition on_ring (dim x y : Z) : Prop :=
  ((x = -1 \/ x = dim) /\ -1 <= y <= dim) \/
  ((y = -1 \/ y = dim) /\ -1 <= x <= dim).

Lemma interior_not_on_ring dim x y : interior dim x y -> ~ on_ring dim x y.
Proof. unfold interior, on_ring. lia. Qed.

Lemma corner_on_ring dim x y : 0 <= dim -> is_corner dim x y -> on_ring dim x y.
Proof. unfold is_corner, on_ring. lia. Qed.

Lemma border_pos_on_ring dim f s i :
  0 <= i < dim ->
  on_ring dim (snd (fst (border_pos dim f s i))) (snd (border_pos dim f s i)).
Proof. intros Hi. destruct s; unfold border_pos, on_ring; simpl; lia. Qed.

Lemma border_pos_not_corner dim f s i :
  0 <= i < dim ->
  ~ is_corner dim (snd (fst (border_pos dim f s i)))
                  (snd (border_pos dim f s i)).
Proof. intros Hi. destruct s; unfold border_pos, is_corner; simpl; lia. Qed.

Lemma interior_not_corner dim x y : interior dim x y -> ~ is_corner dim x y.
Proof. unfold interior, is_corner. lia. Qed.

Lemma read_corners_fold dim fs (t : texels T) p :
  ~ is_corner dim (snd (fst p)) (snd p) ->
  read (fold_left (corners corner_rule dim) fs t) p = read t p.
Proof.
  destruct p as [[f x] y]. simpl. intros H.
  apply corners_fold_frame. exact H.
Qed.

Lemma makeSeamless_texelAt (c : Cubemap T) :
  texelAt (makeSeamless neighbour corner_rule c)
  = fold_left (corners corner_rule (getDimensions c)) all_faces
      (run_copies (seam_ops (getDimensions c)) (texelAt c)).
Proof.
  unfold makeSeamless, with_texels. cbv zeta. cbn [texelAt].
  rewrite stitches_as_copies. reflexivity.
Qed.

Lemma makeSeamless_getDimensions (c : Cubemap T) :
  getDimensions (makeSeamless neighbour corner_rule c) = getDimensions c.
Proof. reflexivity. Qed.

(** Off the ring nothing changes. *)
Lemma makeSeamless_off_ring (c : Cubemap T) f x y :
  0 <= getDimensions c ->
  ~ on_ring (getDimensions c) x y ->
  texelAt (makeSeamless neighbour corner_rule c) f x y = texelAt c f x y.
Proof.
  intros Hd H. rewrite makeSeamless_texelAt.
  rewrite corners_fold_frame.
  - change (read (run_copies (seam_ops (getDimensions c)) (texelAt c))
                 (f, x, y) = read (texelAt c) (f, x, y)).
    apply run_copies_frame. intros op Hop E.
    apply in_seam_ops in Hop. destruct Hop as [g [s [i [Hi ->]]]].
    simpl in E. apply H.
    pose proof (border_pos_on_ring (getDimensions c) g s i Hi) as R.
    rewrite E in R. exact R.
  - intros Hc. apply H. apply corner_on_ring; assumption.
Qed.

Lemma makeSeamless_interior (c : Cubemap T) f x y :
  interior (getDimensions c) x y ->
  texelAt (makeSeamless neighbour corner_rule c) f x y = texelAt c f x y.
Proof.
  intros H. apply makeSeamless_off_ring.
  - unfold interior in H. lia.
  - apply interior_not_on_ring. exact H.
Qed.

Lemma makeSeamless_edges (c : Cubemap T) :
  edges_seamless neighbour (makeSeamless neighbour corner_rule c).
Proof.
  intros f s i. rewrite makeSeamless_getDimensions. intros Hi.
  rewrite makeSeamless_texelAt.
  rewrite !read_corners_fold.
  - rewrite stitched_border by exact Hi.
    symmetry. apply stitched_interior.
    apply source_pos_interior. exact Hi.
  - pose proof (source_pos_interior (getDimensions c) f s i Hi) as I.
    destruct (source_pos neighbour (getDimensions c) f s i) as [[g x] y].
    apply interior_not_corner. exact I.
  - apply border_pos_not_corner. exact Hi.
Qed.

Lemma makeSeamless_corners (c : Cubemap T) :
  1 <= getDimensions c ->
  corners_resolved corner_rule (makeSeamless neighbour corner_rule c).
Proof.
  intros Hd f. rewrite makeSeamless_getDimensions, makeSeamless_texelAt.
  apply corners_fold_resolved; [exact Hd|].
  left. destruct f; simpl; auto 10.
Qed.

(** What [makeSeamless] returns is seamless. *)
Lemma makeSeamless_seamless (c : Cubemap T) :
  seamless neighbour corner_rule (makeSeamless neighbour corner_rule c).
Proof.
  split.
  - apply makeSeamless_edges.
  - rewrite makeSeamless_getDimensions. apply makeSeamless_corners.
Qed.

(** ** Properties of computations *)

Lemma bind_Ret {A B} l a (k : A -> M B) :
  bind (l, Ret a) k = (l ++ events (k a), outcome (k a)).
Proof. unfold bind, events, outcome. destruct (k a). reflexivity. Qed.

Lemma events_bind_Ret {A B} (m : M A) (k : A -> M B) a :
  outcome m = Ret a -> events (bind m k) = events m ++ events (k a).
Proof.
  destruct m as [l r]. intros H. simpl in H. subst r.
  rewrite bind_Ret. reflexivity.
Qed.

Lemma bind_Ret_inv {A B} (m : M A) (k : A -> M B) b :
  outcome (bind m k) = Ret b ->
  exists a, outcome m = Ret a /\ outcome (k a) = Ret b.
Proof.
  destruct m as [l [a | c | e |]]; simpl; try discriminate.
  intros H. exists a. split; [reflexivity|].
  unfold outcome. destruct (k a). exact H.
Qed.

Lemma Forall_events_bind {A B} (P : event -> Prop) (m : M A) (k : A -> M B) :
  Forall P (events m) ->
  (forall a, outcome m = Ret a -> Forall P (events (k a))) ->
  Forall P (events (bind m k)).
Proof.
  destruct m as [l [a | c | e |]]; simpl; intros Hl Hk; try exact Hl.
  specialize (Hk a eq_refl). unfold events in *. destruct (k a).
  apply Forall_app. split; assumption.
Qed.

Lemma Forall_events_say (P : event -> Prop) g s :
  P (Cout s) -> Forall P (events (say g s)).
Proof.
  intros H. unfold say. destruct (g_quiet g); simpl; auto.
Qed.

Lemma outcome_say g s : outcome (say g s) = Ret tt.
Proof. unfold say. destruct (g_quiet g); reflexivity. Qed.

(** ** Properties of option handling *)

(** The format a [--format] argument names, if it names one. *)
Definition format_of_name (arg : string) : option Format :=
  if String.eqb arg "png" then Some PNG
  else if String.eqb arg "hdr" then Some HDR
  else if String.eqb arg "rgbm" then Some RGBM
  else if String.eqb arg "exr" then Some EXR
  else if String.eqb arg "psd" then Some PSD
  else if String.eqb arg "dds" then Some DDS_LINEAR
  else None.

Lemma handle_format st optarg :
  handle_option st opt_format optarg =
  ret (match format_of_name (arg_of optarg) with
       | Some f => mkParse (set_g_format f (globals st)) (num_sh_bands st) true
       | None => st
       end).
Proof.
  unfold handle_option, format_of_name, select_format.
  cbv zeta. set (arg := arg_of optarg).
  destruct (String.eqb_spec arg "png") as [->|]; [reflexivity|].
  destruct (String.eqb_spec arg "hdr") as [->|]; [reflexivity|].
  destruct (String.eqb_spec arg "rgbm") as [->|]; [reflexivity|].
  destruct (String.eqb_spec arg "exr") as [->|]; [reflexivity|].
  destruct (String.eqb_spec arg "psd") as [->|]; [reflexivity|].
  destruct (String.eqb_spec arg "dds") as [->|]; reflexivity.
Qed.

Ltac handler_inv H :=
  cbv beta iota zeta delta [handle_option unguarded] in H;
  repeat (cbn [bind ret emit exit throw outcome snd fst negb app] in H;
          match type of H with
          | context [stoul ?a] => destruct (stoul a) as [?v | ?e] eqn:?
          | context [stod ?a] => destruct (stod a) as [?v | ?e] eqn:?
          | context [stoi ?a] => destruct (stoi a) as [?v | [|]] eqn:?
          | context [isPOT ?a] => destruct (isPOT a) eqn:?
          | context [orb ?a ?b] => destruct (orb a b) eqn:?
          | context [String.eqb ?a ?b] => destruct (String.eqb a b) eqn:?
          end);
  cbn [bind ret emit exit throw outcome snd fst negb app] in H;
  try discriminate H;
  try (injection H as H; subst).

(** A handler step that returns printed nothing. *)
Lemma handle_option_silent st o optarg st' :
  outcome (handle_option st o optarg) = Ret st' ->
  events (handle_option st o optarg) = [].
Proof.
  destruct o; try reflexivity; try discriminate;
    try (rewrite handle_format; reflexivity);
    unfold handle_option, unguarded.
  - destruct (stoul _) as [v|e]; cbn; [|discriminate].
    destruct (isPOT v); cbn; [reflexivity | discriminate].
  - destruct (stod _) as [v|e]; cbn; [|discriminate].
    destruct (_ || _); cbn; [discriminate | reflexivity].
  - destruct (stoi _) as [v|[]]; cbn; try reflexivity; discriminate.
  - destruct (String.eqb _ _); reflexivity.
  - destruct (stoi _) as [v|e]; cbn; [reflexivity | discriminate].
Qed.

Ltac handler_step H o :=
  destruct o; try congruence;
  try (rewrite handle_format in H; destruct (format_of_name _));
  handler_inv H; try reflexivity; try assumption.

Lemma handle_option_size_other st o optarg st' :
  outcome (handle_option st o optarg) = Ret st' ->
  o <> opt_size ->
  g_output_size (globals st') = g_output_size (globals st).
Proof. intros H Ho. handler_step H o. Qed.

Lemma handle_option_size st optarg st' :
  outcome (handle_option st opt_size optarg) = Ret st' ->
  stoul (arg_of optarg) = Value (g_output_size (globals st')) /\
  isPOT (g_output_size (globals st')) = true.
Proof. intros H. handler_inv H. split; cbn; [reflexivity | assumption]. Qed.

Lemma handle_option_format_other st o optarg st' :
  outcome (handle_option st o optarg) = Ret st' ->
  o <> opt_format ->
  g_format (globals st') = g_format (globals st) /\
  format_specified st' = format_specified st.
Proof. intros H Ho. handler_step H o; split; reflexivity. Qed.

Lemma handle_option_deploy_mono st o optarg st' :
  outcome (handle_option st o optarg) = Ret st' ->
  g_deploy (globals st) = true \/ o = opt_deploy ->
  g_deploy (globals st') = true.
Proof.
  intros H Ho.
  destruct (opt_eqb o opt_deploy) eqn:E.
  - destruct o; try discriminate E. handler_inv H. reflexivity.
  - destruct Ho as [Ho | ->]; [|discriminate E]. handler_step H o.
Qed.

Lemma handle_option_dfg_mono st o optarg st' :
  outcome (handle_option st o optarg) = Ret st' ->
  g_dfg (globals st) = true \/ o = opt_ibl_dfg ->
  g_dfg (globals st') = true.
Proof.
  intros H Ho.
  destruct (opt_eqb o opt_ibl_dfg) eqn:E.
  - destruct o; try discriminate E. handler_inv H. reflexivity.
  - destruct Ho as [Ho | ->]; [|discriminate E]. handler_step H o.
Qed.

Lemma handle_option_bands_other st o optarg st' :
  outcome (handle_option st o optarg) = Ret st' ->
  o <> opt_sh ->
  num_sh_bands st' = num_sh_bands st.
Proof. intros H Ho. handler_step H o. Qed.

(** The [--sh] step when [std::stoi] throws [std::invalid_argument]: the
    exception is caught and the loop goes on with the band count as it
    was. *)
Lemma handle_option_sh_invalid st optarg :
  stoi (arg_of optarg) = Raise invalid_argument ->
  handle_option st opt_sh optarg =
  ret (mkParse (set_g_sh_output true (set_g_sh_compute 1 (globals st)))
               (num_sh_bands st) (format_specified st)).
Proof. intros H. unfold handle_option. cbv zeta. rewrite H. reflexivity. Qed.

Lemma handle_option_sh_mono st o optarg st' :
  outcome (handle_option st o optarg) = Ret st' ->
  (g_sh_compute (globals st) <> 0 /\ g_sh_output (globals st) = true)
  \/ o = opt_sh ->
  g_sh_compute (globals st') <> 0 /\ g_sh_output (globals st') = true.
Proof.
  intros H Ho.
  destruct (opt_eqb o opt_sh) eqn:E.
  - destruct o; try discriminate E.
    handler_inv H; cbn; split; (reflexivity || lia).
  - destruct Ho as [Ho | ->]; [|discriminate E].
    handler_step H o; cbn; try (split; (reflexivity || lia || apply Ho)).
Qed.

(** *** The option loop *)

Lemma parse_loop_cons o optarg rest st :
  parse_loop ((o, optarg) :: rest) st
  = bind (handle_option st o optarg) (parse_loop rest).
Proof. reflexivity. Qed.

Lemma bind_assoc {A B C} (m : M A) (k : A -> M B) (h : B -> M C) :
  bind (bind m k) h = bind m (fun a => bind (k a) h).
Proof.
  destruct m as [l [a | c | e |]]; try reflexivity.
  unfold bind at 2 3. destruct (k a) as [l' [b | c | e |]]; simpl;
    try reflexivity.
  destruct (h b) as [l'' r]. rewrite app_assoc. reflexivity.
Qed.

Lemma bind_ret_l {A B} (a : A) (k : A -> M B) : bind (ret a) k = k a.
Proof. unfold ret, bind. destruct (k a). reflexivity. Qed.

Lemma bind_ext {A B} (m : M A) (k k' : A -> M B) :
  (forall a, k a = k' a) -> bind m k = bind m k'.
Proof.
  intros H. destruct m as [l [a | c | e |]]; try reflexivity.
  unfold bind. rewrite H. reflexivity.
Qed.

Lemma parse_loop_app a b st :
  parse_loop (a ++ b) st = bind (parse_loop a st) (parse_loop b).
Proof.
  revert st. induction a as [|[o optarg] r IH]; intros st.
  - simpl app. simpl parse_loop. rewrite bind_ret_l. reflexivity.
  - simpl app. rewrite !parse_loop_cons, bind_assoc.
    apply bind_ext. exact IH.
Qed.

Lemma parse_loop_silent opts : forall st st',
  outcome (parse_loop opts st) = Ret st' ->
  events (parse_loop opts st) = [].
Proof.
  induction opts as [|[o optarg] r IH]; intros st st' H; [reflexivity|].
  rewrite parse_loop_cons in *.
  destruct (bind_Ret_inv _ _ _ H) as [st1 [H1 H2]].
  rewrite (events_bind_Ret _ _ _ H1), (handle_option_silent _ _ _ _ H1).
  exact (IH _ _ H2).
Qed.

(** A property every returning step keeps is kept by the loop. *)
Lemma parse_loop_invariant (P : parse_state -> Prop) opts : forall st st',
  (forall o optarg s s', In (o, optarg) opts -> P s ->
     outcome (handle_option s o optarg) = Ret s' -> P s') ->
  P st ->
  outcome (parse_loop opts st) = Ret st' ->
  P st'.
Proof.
  induction opts as [|[o optarg] r IH]; intros st st' Hstep HP H.
  - injection H as <-. exact HP.
  - rewrite parse_loop_cons in H.
    destruct (bind_Ret_inv _ _ _ H) as [st1 [H1 H2]].
    apply (IH st1 st'); [| |exact H2].
    + intros o' a' s s' Hin. apply Hstep. right. exact Hin.
    + apply (Hstep o optarg st st1); [left; reflexivity | exact HP | exact H1].
Qed.

(** A property that the step of one option establishes and every
    returning step keeps holds after a loop that meets the option. *)
Lemma parse_loop_reaches (Q : parse_state -> Prop) o optarg opts :
  forall st st',
  (forall o' a' s s', outcome (handle_option s o' a') = Ret s' ->
     Q s \/ (o', a') = (o, optarg) -> Q s') ->
  In (o, optarg) opts ->
  outcome (parse_loop opts st) = Ret st' ->
  Q st'.
Proof.
  intros st st' Hstep Hin H.
  apply in_split in Hin. destruct Hin as [l1 [l2 ->]].
  rewrite parse_loop_app in H.
  destruct (bind_Ret_inv _ _ _ H) as [st1 [H1 H2]].
  rewrite parse_loop_cons in H2.
  destruct (bind_Ret_inv _ _ _ H2) as [st2 [H3 H4]].
  apply (parse_loop_invariant Q l2 st2 st'); [| |exact H4].
  - intros o' a' s s' _ HQ Hs. apply (Hstep o' a' s s' Hs). left. exact HQ.
  - apply (Hstep o optarg st1 st2 H3). right. reflexivity.
Qed.

Lemma handle_Ret_inv g0 opts g :
  outcome (handleCommandLineArgments g0 opts) = Ret g ->
  exists st, outcome (parse_loop opts (mkParse g0 3 false)) = Ret st /\
             g = finish_options st.
Proof.
  unfold handleCommandLineArgments. intros H.
  destruct (bind_Ret_inv _ _ _ H) as [st [H1 H2]].
  exists st. split; [exact H1|]. injection H2 as <-. reflexivity.
Qed.

Lemma handle_silent g0 opts g :
  outcome (handleCommandLineArgments g0 opts) = Ret g ->
  events (handleCommandLineArgments g0 opts) = [].
Proof.
  intros H. destruct (handle_Ret_inv _ _ _ H) as [st [H1 _]].
  unfold handleCommandLineArgments.
  rewrite (events_bind_Ret _ _ _ H1), (parse_loop_silent _ _ _ H1).
  reflexivity.
Qed.

Lemma finish_options_output_size st :
  g_output_size (finish_options st) = g_output_size (globals st).
Proof.
  unfold finish_options.
  destruct (g_deploy _ && _), (negb _ && negb _); reflexivity.
Qed.

Lemma finish_options_dfg st :
  g_dfg (finish_options st) = g_dfg (globals st) /\
  g_dfg_filename (finish_options st) = g_dfg_filename (globals st) /\
  g_dfg_multiscatter (finish_options st) = g_dfg_multiscatter (globals st).
Proof.
  unfold finish_options.
  destruct (g_deploy _ && _), (negb _ && negb _); repeat split; reflexivity.
Qed.

Lemma finish_options_format st :
  g_format (finish_options st) =
  if g_deploy (globals st) && negb (format_specified st) then RGBM
  else g_format (globals st).
Proof.
  unfold finish_options.
  destruct (g_deploy _ && _), (negb _ && negb _); reflexivity.
Qed.

(** ** Defaults kept by option handling *)

(** C8.  When the argument of [--sh] cannot be parsed as an integer
    ([std::stoi] throws [std::invalid_argument]), the handler catches the
    exception and goes on: SH computation is enabled and the band count
    stays as it was.  Hence a command line all of whose [--sh] arguments
    are unparsable, and on which option handling returns, ends with SH
    computation enabled and the default of 3 bands. *)
Theorem sh_unparsable_keeps_default g0 opts g :
  (forall a, In (opt_sh, a) opts ->
             stoi (arg_of a) = Raise invalid_argument) ->
  (exists a, In (opt_sh, a) opts) ->
  outcome (handleCommandLineArgments g0 opts) = Ret g ->
  (forall st a, In (opt_sh, a) opts ->
     exists st', handle_option st opt_sh a = ret st' /\
                 num_sh_bands st' = num_sh_bands st /\
                 g_sh_compute (globals st') = 1 /\
                 g_sh_output (globals st') = true) /\
  g_sh_compute g = 3 /\ g_sh_output g = true.
Proof.
  intros Hbad [a Ha] H. split.
  - intros st a' Ha'. eexists. split.
    + apply handle_option_sh_invalid. apply Hbad. exact Ha'.
    + repeat split.
  - destruct (handle_Ret_inv _ _ _ H) as [st [H1 ->]].
    assert (Hb : num_sh_bands st = 3).
    { apply (parse_loop_invariant (fun s => num_sh_bands s = 3)
               opts (mkParse g0 3 false) st); [|reflexivity|exact H1].
      intros o a' s s' Hin Hs Hstep.
      destruct (opt_eqb o opt_sh) eqn:E.
      - destruct o; try discriminate E.
        rewrite (handle_option_sh_invalid s a' (Hbad a' Hin)) in Hstep.
        injection Hstep as <-. exact Hs.
      - rewrite (handle_option_bands_other _ _ _ _ Hstep); [exact Hs|].
        intros ->. discriminate E. }
    assert (Hc : g_sh_compute (globals st) <> 0 /\
                 g_sh_output (globals st) = true).
    { apply (parse_loop_reaches
               (fun s => g_sh_compute (globals s) <> 0 /\
                         g_sh_output (globals s) = true)
               opt_sh a opts (mkParse g0 3 false) st); [|exact Ha|exact H1].
      intros o' a' s s' Hs [HQ | E].
      - apply (handle_option_sh_mono _ _ _ _ Hs). left. exact HQ.
      - injection E as -> ->.
        apply (handle_option_sh_mono _ _ _ _ Hs). right. reflexivity. }
    destruct Hc as [Hc Ho]. unfold finish_options. rewrite Hb.
    destruct (g_deploy (globals st) && negb (format_specified st)).
    + change (g_sh_compute (set_g_format RGBM (globals st)))
        with (g_sh_compute (globals st)).
      destruct (Z.eqb_spec (g_sh_compute (globals st)) 0); [contradiction|].
      split; [reflexivity | exact Ho].
    + destruct (Z.eqb_spec (g_sh_compute (globals st)) 0); [contradiction|].
      split; [reflexivity | exact Ho].
Qed.

(** C10.  After option handling, a command line with [--deploy] and no
    [--format] option has the output format RGBM; and when [--format]
    named a format, the format is the one named by the last such option,
    whether or not [--deploy] was given: what follows the option loop
    leaves a specified format alone. *)
Theorem deploy_format_default g0 opts g :
  outcome (handleCommandLineArgments g0 opts) = Ret g ->
  ((exists dir, In (opt_deploy, dir) opts) ->
   (forall a, ~ In (opt_format, a) opts) ->
   g_format g = RGBM) /\
  (forall before a after f,
     opts = before ++ (opt_format, a) :: after ->
     format_of_name (arg_of a) = Some f ->
     (forall a', In (opt_format, a') after ->
                 format_of_name (arg_of a') = None) ->
     g_format g = f) /\
  (forall st, format_specified st = true ->
     g_format (finish_options st) = g_format (globals st)).
Proof.
  intros H. split; [|split].
  3: { intros st' Hs. rewrite finish_options_format, Hs, andb_false_r.
       reflexivity. }
  all: destruct (handle_Ret_inv _ _ _ H) as [st [H1 ->]];
    rewrite finish_options_format.
  - intros [dir Hdir] Hnone.
    assert (Hd : g_deploy (globals st) = true).
    { apply (parse_loop_reaches (fun s => g_deploy (globals s) = true)
               opt_deploy dir opts (mkParse g0 3 false) st);
        [|exact Hdir|exact H1].
      intros o' a' s s' Hs [HQ | E];
        apply (handle_option_deploy_mono _ _ _ _ Hs).
      - left. exact HQ.
      - right. congruence. }
    assert (Hf : format_specified st = false).
    { apply (parse_loop_invariant (fun s => format_specified s = false)
               opts (mkParse g0 3 false) st); [|reflexivity|exact H1].
      intros o a' s s' Hin Hs Hstep.
      destruct (handle_option_format_other _ _ _ _ Hstep) as [_ E].
      - intros ->. exact (Hnone a' Hin).
      - rewrite E. exact Hs. }
    rewrite Hd, Hf. reflexivity.
  - intros before a after f -> Hf Hafter.
    rewrite parse_loop_app in H1.
    destruct (bind_Ret_inv _ _ _ H1) as [st1 [_ H2]].
    rewrite parse_loop_cons, handle_format, Hf, bind_ret_l in H2.
    assert (HP : g_format (globals st) = f /\ format_specified st = true).
    { apply (parse_loop_invariant
               (fun s => g_format (globals s) = f /\
                         format_specified s = true)
               after
               (mkParse (set_g_format f (globals st1)) (num_sh_bands st1) true)
               st); [|split; reflexivity|exact H2].
      intros o a' s s' Hin [Hs1 Hs2] Hstep.
      destruct (opt_eqb o opt_format) eqn:E.
      - destruct o; try discriminate E.
        rewrite handle_format, (Hafter a' Hin) in Hstep.
        injection Hstep as <-. split; assumption.
      - destruct (handle_option_format_other _ _ _ _ Hstep) as [E1 E2].
        + intros ->. discriminate E.
        + rewrite E1, E2. split; assumption. }
    destruct HP as [-> ->]. rewrite andb_false_r. reflexivity.
Qed.

(** ** The shape of the mip chain *)

Lemma next_level_getDimensions (src : Cubemap T) :
  getDimensions (next_level src) = getDimensions src / 2.
Proof. reflexivity. Qed.

Lemma mip_levels_stop (src : Cubemap T) :
  getDimensions src <= 1 -> mip_levels src = [].
Proof.
  intros H. rewrite mip_levels_equation_1.
  destruct (Z_lt_dec 1 (getDimensions src)); [lia | reflexivity].
Qed.

Lemma mip_levels_step (src : Cubemap T) :
  1 < getDimensions src ->
  mip_levels src = next_level src :: mip_levels (next_level src).
Proof.
  intros H. rewrite mip_levels_equation_1.
  destruct (Z_lt_dec 1 (getDimensions src)); [reflexivity | lia].
Qed.

Lemma pow2_half (n : nat) : 2 ^ Z.of_nat (S n) / 2 = 2 ^ Z.of_nat n.
Proof.
  rewrite Nat2Z.inj_succ, Z.pow_succ_r by lia.
  rewrite Z.mul_comm, Z.div_mul by lia. reflexivity.
Qed.

(** The levels below a base of dimension [2^n]: there are [n] of them and
    the [k]-th has dimension [2^(n-1-k)]. *)
Lemma mip_levels_pow2 (n : nat) : forall (src : Cubemap T),
  getDimensions src = 2 ^ Z.of_nat n ->
  List.length (mip_levels src) = n /\
  forall k, (k < n)%nat ->
    exists c, nth_error (mip_levels src) k = Some c /\
              getDimensions c = 2 ^ Z.of_nat (n - 1 - k).
Proof.
  induction n as [|n IH]; intros src Hd.
  - rewrite mip_levels_stop by (rewrite Hd; simpl; lia).
    split; [reflexivity | intros k Hk; lia].
  - assert (Hpos : 1 < getDimensions src).
    { rewrite Hd, Nat2Z.inj_succ, Z.pow_succ_r by lia.
      assert (0 < 2 ^ Z.of_nat n) by (apply Z.pow_pos_nonneg; lia). lia. }
    rewrite mip_levels_step by exact Hpos.
    assert (Hn : getDimensions (next_level src) = 2 ^ Z.of_nat n).
    { rewrite next_level_getDimensions, Hd. apply pow2_half. }
    destruct (IH (next_level src) Hn) as [Hlen Hnth]. split.
    + simpl. rewrite Hlen. reflexivity.
    + intros [|k] Hk.
      * exists (next_level src). split; [reflexivity|].
        rewrite Hn. f_equal. lia.
      * destruct (Hnth k) as [c [Hc1 Hc2]]; [lia|].
        exists c. split; [exact Hc1|]. rewrite Hc2. f_equal. lia.
Qed.

(** C2.  For a base cubemap of dimension [D = 2^n], [generateMipmaps]
    returns a chain of exactly [log2 D + 1 = n + 1] levels, level [k] has
    dimension [D / 2^k], and the last level, of dimension 1, is there. *)
Theorem mip_chain_shape (n : nat) (base : Cubemap T) :
  getDimensions base = 2 ^ Z.of_nat n ->
  exists levels,
    outcome (generateMipmaps [base]) = Ret levels /\
    Z.of_nat (List.length levels) = Z.log2 (getDimensions base) + 1 /\
    List.length levels = S n /\
    (forall k, (k <= n)%nat ->
       exists c, nth_error levels k = Some c /\
                 getDimensions c = getDimensions base / 2 ^ Z.of_nat k) /\
    (exists c, nth_error levels n = Some c /\ getDimensions c = 1).
Proof.
  intros Hd. exists ([base] ++ mip_levels base).
  destruct (mip_levels_pow2 n base Hd) as [Hlen Hnth].
  assert (Hk : forall k, (k <= n)%nat ->
            exists c, nth_error ([base] ++ mip_levels base) k = Some c /\
                      getDimensions c = 2 ^ Z.of_nat (n - k)).
  { intros [|k] Hk.
    - exists base. split; [reflexivity|]. rewrite Hd. f_equal. lia.
    - destruct (Hnth k) as [c [Hc1 Hc2]]; [lia|].
      exists c. split; [exact Hc1|]. rewrite Hc2. f_equal. lia. }
  split; [reflexivity|]. split; [|split; [|split]].
  - simpl List.length. rewrite Hlen, Hd, Z.log2_pow2 by lia. lia.
  - simpl. rewrite Hlen. reflexivity.
  - intros k Hle. destruct (Hk k Hle) as [c [Hc1 Hc2]].
    exists c. split; [exact Hc1|]. rewrite Hc2, Hd.
    replace (Z.of_nat n) with (Z.of_nat (n - k) + Z.of_nat k) by lia.
    rewrite Z.pow_add_r by lia.
    rewrite Z.div_mul; [f_equal; lia|].
    apply Z.pow_nonzero; lia.
  - destruct (Hk n (Nat.le_refl n)) as [c [Hc1 Hc2]].
    exists c. split; [exact Hc1|]. rewrite Hc2, Nat.sub_diag. reflexivity.
Qed.

(** ** Events of a sequence *)

Lemma events_bind_prefix {A B} (m : M A) (k : A -> M B) :
  exists rest, events (bind m k) = events m ++ rest.
Proof.
  destruct m as [l [a | c | x |]]; simpl;
    try (exists []; rewrite app_nil_r; reflexivity).
  destruct (k a) as [l' r]. exists l'. reflexivity.
Qed.

Lemma bind_silent {A B} (m : M A) (k : A -> M B) a :
  outcome m = Ret a -> events m = [] -> bind m k = k a.
Proof.
  destruct m as [l r]. intros H1 H2. simpl in H1, H2. subst l r.
  rewrite bind_Ret. destruct (k a). reflexivity.
Qed.

Lemma main_after_options g0 opts args g :
  outcome (handleCommandLineArgments g0 opts) = Ret g ->
  main g0 opts args =
  if negb (g_dfg g) && (Z.of_nat (List.length args) <? 1) then
    bind (emit PrintUsage) (fun _ => ret 1)
  else
    bind (dfg_stage g) (fun _ =>
      if g_dfg g && (Z.of_nat (List.length args) <? 1) then ret 0
      else match args with
           | command :: _ => run_pipeline g command
           | [] => undefined
           end).
Proof.
  intros H. unfold main.
  erewrite bind_silent;
    [reflexivity | exact H | exact (handle_silent _ _ _ H)].
Qed.

(** ** The size option *)

(** The step of [--size] on a value that is not a power of two. *)
Lemma handle_option_size_rejected st optarg v :
  stoul (arg_of optarg) = Value v ->
  isPOT v = false ->
  handle_option st opt_size optarg
  = ([Cerr "output size must be a power of two"], Exit 0).
Proof.
  intros Hv Hp. unfold handle_option. cbv zeta. rewrite Hv.
  cbn [unguarded]. rewrite bind_ret_l, Hp. reflexivity.
Qed.

Lemma main_size_rejected g0 before optarg after args st v :
  outcome (parse_loop before (mkParse g0 3 false)) = Ret st ->
  stoul (arg_of optarg) = Value v ->
  isPOT v = false ->
  main g0 (before ++ (opt_size, optarg) :: after) args
  = ([Cerr "output size must be a power of two"], Exit 0).
Proof.
  intros Hb Hv Hp. unfold main, handleCommandLineArgments.
  rewrite parse_loop_app.
  rewrite (bind_silent _ _ _ Hb (parse_loop_silent _ _ _ Hb)).
  rewrite parse_loop_cons, (handle_option_size_rejected st optarg v Hv Hp).
  reflexivity.
Qed.

(** After option handling the output size is what it was at program start
    or a value [isPOT] accepted. *)
Lemma output_size_checked g0 opts g :
  outcome (handleCommandLineArgments g0 opts) = Ret g ->
  g_output_size g = g_output_size g0 \/ isPOT (g_output_size g) = true.
Proof.
  intros H. destruct (handle_Ret_inv _ _ _ H) as [st [H1 ->]].
  rewrite finish_options_output_size.
  apply (parse_loop_invariant
           (fun s => g_output_size (globals s) = g_output_size g0 \/
                     isPOT (g_output_size (globals s)) = true)
           opts (mkParse g0 3 false) st); [|left; reflexivity|exact H1].
  intros o a s s' _ Hs Hstep.
  destruct (opt_eqb o opt_size) eqn:E.
  - destruct o; try discriminate E. right.
    apply (handle_option_size _ _ _ Hstep).
  - rewrite (handle_option_size_other _ _ _ _ Hstep); [exact Hs|].
    intros ->. discriminate E.
Qed.

Lemma output_size_untouched g0 opts g :
  (forall a, ~ In (opt_size, a) opts) ->
  outcome (handleCommandLineArgments g0 opts) = Ret g ->
  g_output_size g = g_output_size g0.
Proof.
  intros Hno H. destruct (handle_Ret_inv _ _ _ H) as [st [H1 ->]].
  rewrite finish_options_output_size.
  apply (parse_loop_invariant
           (fun s => g_output_size (globals s) = g_output_size g0)
           opts (mkParse g0 3 false) st); [|reflexivity|exact H1].
  intros o a s s' Hin Hs Hstep.
  rewrite (handle_option_size_other _ _ _ _ Hstep); [exact Hs|].
  intros ->. exact (Hno a Hin).
Qed.

Lemma dfg_requested g0 opts g a :
  In (opt_ibl_dfg, a) opts ->
  outcome (handleCommandLineArgments g0 opts) = Ret g ->
  g_dfg g = true.
Proof.
  intros Hin H. destruct (handle_Ret_inv _ _ _ H) as [st [H1 ->]].
  destruct (finish_options_dfg st) as [-> _].
  apply (parse_loop_reaches (fun s => g_dfg (globals s) = true)
           opt_ibl_dfg a opts (mkParse g0 3 false) st); [|exact Hin|exact H1].
  intros o' a' s s' Hs [HQ | E];
    apply (handle_option_dfg_mono _ _ _ _ Hs).
  - left. exact HQ.
  - right. congruence.
Qed.

(** ** Seamless cubemaps along the pipeline *)

(** A cubemap as [makeSeamless] left it. *)
Definition made_seamless (c : Cubemap T) : Prop :=
  exists c', c = makeSeamless neighbour corner_rule c'.

Lemma made_seamless_seamless c :
  made_seamless c -> seamless neighbour corner_rule c.
Proof. intros [c' ->]. apply makeSeamless_seamless. Qed.

(** What holds of the events of the pipeline: no DFG call, and every
    cubemap handed to SH projection, to a prefilter or to face extraction is
    as [makeSeamless] left it, except for the blurred cubemap, which face
    extraction gets straight from the roughness filter. *)
Definition pipeline_fact (e : event) : Prop :=
  match e with
  | Call_iblLutDfg _ _ _ => False
  | Call_sphericalHarmonics _ cm => made_seamless cm
  | Call_iblMipmapPrefilter _ levels _ => Forall made_seamless levels
  | Call_iblRoughnessPrefilter _ levels _ => Forall made_seamless levels
  | Call_roughnessFilter _ levels _ _ => Forall made_seamless levels
  | Call_extractCubemapFaces _ cm _ =>
      made_seamless cm \/
      exists dim levels linear_roughness num_samples,
        Forall made_seamless levels /\
        cm = roughnessFilter (mkCubemap dim (fun _ _ _ => blank)) levels
                             linear_roughness num_samples
  | _ => True
  end.

Ltac ret_inv H :=
  repeat (cbv beta in H;
          match type of H with
          | outcome (bind ?m ?k) = Ret _ =>
              let a := fresh "a" in
              let H1 := fresh "Hm" in
              apply bind_Ret_inv in H; destruct H as [a [H1 H]]
          | outcome (if ?c then _ else _) = Ret _ => destruct c eqn:?
          | outcome (match ?x with _ => _ end) = Ret _ => destruct x eqn:?
          | outcome (exit _) = Ret _ => discriminate H
          | outcome undefined = Ret _ => discriminate H
          end).

Ltac events_ok :=
  repeat match goal with
  | |- Forall _ (events (bind _ _)) =>
      apply Forall_events_bind; [|intros ? ?]
  | |- Forall _ (events (say _ _)) => apply Forall_events_say; exact I
  | |- Forall _ (events (emit ?e)) =>
      change (events (emit e)) with [e]; apply Forall_cons; [|apply Forall_nil]
  | |- Forall _ (events (ret _)) => apply Forall_nil
  | |- Forall _ (events (exit _)) => apply Forall_nil
  | |- Forall _ (events undefined) => apply Forall_nil
  | |- Forall _ (events (if ?c then _ else _)) => destruct c eqn:?
  | |- Forall _ (events (match ?x with _ => _ end)) => destruct x eqn:?
  | |- Forall _ (events (create _ _)) => unfold create
  | |- Forall _ (events (call_makeSeamless _)) => unfold call_makeSeamless
  | |- Forall _ (events (level0 ?l)) => destruct l; apply Forall_nil
  end.

Lemma call_makeSeamless_made c c' :
  outcome (call_makeSeamless c) = Ret c' -> made_seamless c'.
Proof. intros H. injection H as <-. exists c. reflexivity. Qed.

Lemma load_base_made g iname c :
  outcome (load_base g iname) = Ret c -> made_seamless c.
Proof.
  unfold load_base, load_image, generate_image. intros H.
  ret_inv H; eapply call_makeSeamless_made; exact H.
Qed.

Lemma load_base_events g iname :
  Forall pipeline_fact (events (load_base g iname)).
Proof.
  unfold load_base, load_image, generate_image. events_ok; exact I.
Qed.

Lemma mip_levels_made (src : Cubemap T) :
  Forall made_seamless (mip_levels src).
Proof.
  funelim (mip_levels src).
  - constructor; [|assumption]. unfold next_level. eexists. reflexivity.
  - constructor.
Qed.

Lemma generateMipmaps_made levels levels' :
  Forall made_seamless levels ->
  outcome (generateMipmaps levels) = Ret levels' ->
  Forall made_seamless levels'.
Proof.
  intros Hl H. destruct levels as [|base rest]; [discriminate H|].
  injection H as <-.
  change (Forall made_seamless ((base :: rest) ++ mip_levels base)).
  apply Forall_app. split; [exact Hl|].
  apply mip_levels_made.
Qed.

Lemma generateMipmaps_events levels :
  Forall pipeline_fact (events (generateMipmaps levels)).
Proof.
  destruct levels as [|base rest]; [constructor|].
  unfold generateMipmaps, events. simpl fst.
  induction (mip_levels base) as [|c r IH]; simpl; [constructor|].
  repeat (constructor; [exact I|]). exact IH.
Qed.

Lemma mirror_levels_cons level rest :
  mirror_levels (level :: rest) =
  bind (create (getDimensions level) None) (fun cml =>
  bind (emit Call_mirrorCubemap) (fun _ =>
  bind (call_makeSeamless (with_texels cml (mirror_texels cml level)))
       (fun cml =>
  bind (mirror_levels rest) (fun mirrored => ret (cml :: mirrored))))).
Proof. reflexivity. Qed.

Lemma mirror_levels_made levels : forall mirrored,
  outcome (mirror_levels levels) = Ret mirrored ->
  Forall made_seamless mirrored.
Proof.
  induction levels as [|level rest IH]; intros mirrored H.
  - injection H as <-. constructor.
  - rewrite mirror_levels_cons in H. ret_inv H. injection H as <-.
    constructor.
    + eapply call_makeSeamless_made. eassumption.
    + apply IH. assumption.
Qed.

Lemma mirror_levels_events levels :
  Forall pipeline_fact (events (mirror_levels levels)).
Proof.
  induction levels as [|level rest IH]; [constructor|].
  rewrite mirror_levels_cons. events_ok; try exact I. exact IH.
Qed.

Lemma mirror_stage_made g levels mirrored :
  Forall made_seamless levels ->
  outcome (mirror_stage g levels) = Ret mirrored ->
  Forall made_seamless mirrored.
Proof.
  unfold mirror_stage. intros Hl H. destruct (g_mirror g).
  - ret_inv H. eapply mirror_levels_made. exact H.
  - injection H as <-. exact Hl.
Qed.

Lemma mirror_stage_events g levels :
  Forall pipeline_fact (events (mirror_stage g levels)).
Proof.
  unfold mirror_stage. events_ok. apply mirror_levels_events.
Qed.

Lemma level0_made levels cm :
  Forall made_seamless levels ->
  outcome (level0 levels) = Ret cm ->
  made_seamless cm.
Proof.
  intros Hl H. destruct levels as [|c r]; [discriminate H|].
  injection H as <-. inversion Hl. assumption.
Qed.

Lemma consumers_events g iname levels :
  Forall made_seamless levels ->
  Forall pipeline_fact
    (events (bind (sh_stage g iname levels) (fun _ =>
             bind (is_mipmap_stage g iname levels) (fun _ =>
             bind (prefilter_stage g iname levels) (fun _ =>
             bind (extract_stage g iname levels) (fun _ => ret 0)))))).
Proof.
  intros Hl.
  unfold sh_stage, is_mipmap_stage, prefilter_stage, extract_stage.
  events_ok; try exact I; try exact Hl; cbn [pipeline_fact].
  - eapply level0_made; eassumption.
  - right.
    match goal with
    | H : outcome (create ?d _) = Ret _ |- _ => injection H as <-; exists d
    end.
    do 3 eexists. split; [exact Hl | reflexivity].
  - left. eapply level0_made; eassumption.
Qed.

Lemma run_pipeline_events g iname :
  Forall pipeline_fact (events (run_pipeline g iname)).
Proof.
  unfold run_pipeline.
  apply Forall_events_bind; [apply load_base_events|]. intros base Hbase.
  apply Forall_events_bind; [apply generateMipmaps_events|].
  intros levels Hlevels.
  apply Forall_events_bind; [apply mirror_stage_events|].
  intros mirrored Hmirrored.
  apply consumers_events.
  eapply mirror_stage_made; [|exact Hmirrored].
  eapply generateMipmaps_made; [|exact Hlevels].
  constructor; [|constructor].
  eapply load_base_made. exact Hbase.
Qed.

(** Option handling only prints: usage, license or an error message. *)
Definition handler_event (e : event) : Prop :=
  e = PrintUsage \/ e = PrintLicense \/ exists s, e = Cerr s.

Lemma handle_option_events st o optarg :
  Forall handler_event (events (handle_option st o optarg)).
Proof.
  destruct o; unfold handle_option, unguarded; cbv zeta; events_ok;
    unfold handler_event; eauto.
Qed.

Lemma parse_loop_events opts : forall st,
  Forall handler_event (events (parse_loop opts st)).
Proof.
  induction opts as [|[o optarg] r IH]; intros st; [constructor|].
  rewrite parse_loop_cons. apply Forall_events_bind.
  - apply handle_option_events.
  - intros st' _. apply IH.
Qed.

Lemma handle_events g0 opts :
  Forall handler_event (events (handleCommandLineArgments g0 opts)).
Proof.
  unfold handleCommandLineArgments. apply Forall_events_bind.
  - apply parse_loop_events.
  - intros st _. constructor.
Qed.

(** The seam condition at the consumers: a cubemap that reaches SH
    projection, a prefilter or face extraction is the result of
    [makeSeamless] and so satisfies the seam condition; the one cubemap
    that is not is the blurred one, which the roughness filter writes and
    face extraction reads. *)
Definition seamless_when_consumed (e : event) : Prop :=
  let ok cm := made_seamless cm /\ seamless neighbour corner_rule cm in
  match e with
  | Call_sphericalHarmonics _ cm => ok cm
  | Call_iblMipmapPrefilter _ levels _ => Forall ok levels
  | Call_iblRoughnessPrefilter _ levels _ => Forall ok levels
  | Call_roughnessFilter _ levels _ _ => Forall ok levels
  | Call_extractCubemapFaces _ cm _ =>
      ok cm \/
      exists dim levels linear_roughness num_samples,
        Forall ok levels /\
        cm = roughnessFilter (mkCubemap dim (fun _ _ _ => blank)) levels
                             linear_roughness num_samples
  | _ => True
  end.

Lemma Forall_made_seamless levels :
  Forall made_seamless levels ->
  Forall (fun cm => made_seamless cm /\ seamless neighbour corner_rule cm)
         levels.
Proof.
  apply Forall_impl. intros cm H.
  split; [exact H | apply made_seamless_seamless; exact H].
Qed.

Lemma pipeline_fact_seamless e :
  pipeline_fact e -> seamless_when_consumed e.
Proof.
  destruct e; simpl; try exact (fun _ => I);
    try apply Forall_made_seamless.
  - intros H. split; [exact H | apply made_seamless_seamless; exact H].
  - intros [H | [d [lv [lr [n [H1 H2]]]]]].
    + left. split; [exact H | apply made_seamless_seamless; exact H].
    + right. exists d, lv, lr, n.
      split; [apply Forall_made_seamless; exact H1 | exact H2].
Qed.

(** C1.  In every run of [main], each cubemap produced by cross copy,
    equirectangular projection, procedural generation, mirroring or mip
    downsampling has been through [makeSeamless] when SH projection, a
    prefilter or face extraction receives it, so that its ring texels equal
    the interior texels across each shared edge. *)
Theorem seamless_at_consumption g0 opts args :
  Forall seamless_when_consumed (events (main g0 opts args)).
Proof.
  unfold main. apply Forall_events_bind.
  - eapply Forall_impl; [|apply handle_events].
    intros e [-> | [-> | [s ->]]]; exact I.
  - intros g _. unfold dfg_stage. events_ok; try exact I;
      (eapply Forall_impl; [|apply run_pipeline_events]);
      exact pipeline_fact_seamless.
Qed.

(** ** Default sizes *)

Lemma apply_deploy_output_size iname g :
  g_output_size (apply_deploy iname g) = g_output_size g.
Proof. unfold apply_deploy. destruct (g_deploy g); reflexivity. Qed.

Lemma apply_debug_output_size g :
  g_output_size (apply_debug g) = g_output_size g.
Proof.
  unfold apply_debug.
  destruct (g_debug g), (g_prefilter g && negb (g_is_mipmap g)); reflexivity.
Qed.

Lemma output_size_or_default g dflt :
  g_output_size g = 0 -> output_size_or g dflt = dflt.
Proof. unfold output_size_or. intros ->. reflexivity. Qed.

Lemma dfg_stage_outcome g : outcome (dfg_stage g) = Ret tt.
Proof.
  unfold dfg_stage, say. destruct (g_dfg g), (g_quiet g); reflexivity.
Qed.

Lemma dfg_stage_events g :
  g_dfg g = true ->
  events (dfg_stage g) =
  events (say g "Generating IBL DFG LUT...") ++
  [Call_iblLutDfg (g_dfg_filename g) (output_size_or g 128)
                  (g_dfg_multiscatter g)].
Proof.
  unfold dfg_stage, say. intros ->. destruct (g_quiet g); reflexivity.
Qed.

Lemma no_create_in_say g s d h : ~ In (Call_create d h) (events (say g s)).
Proof.
  unfold say. destruct (g_quiet g); simpl; [exact (fun H => H)|].
  intros [H | []]. discriminate H.
Qed.

(** Procedural generation starts by creating the base cubemap. *)
Lemma generate_image_events g iname :
  exists post,
    events (generate_image g iname) =
    events (say g "Generating image...") ++
    Call_create (output_size_or g 256) None :: post.
Proof.
  unfold generate_image.
  rewrite (events_bind_Ret _ _ tt (outcome_say g _)).
  unfold create. rewrite bind_assoc.
  change (emit (Call_create (output_size_or g 256) None))
    with ([Call_create (output_size_or g 256) None], @Ret unit tt).
  rewrite bind_Ret. eexists. reflexivity.
Qed.

(** The run once the options are read, a DFG LUT is asked for and there is
    a command. *)
Lemma main_dfg_then_pipeline g0 opts command rest g :
  outcome (handleCommandLineArgments g0 opts) = Ret g ->
  g_dfg g = true ->
  events (main g0 opts (command :: rest)) =
  events (dfg_stage g) ++ events (run_pipeline g command).
Proof.
  intros H Hd. rewrite (main_after_options _ _ _ _ H), Hd.
  cbn [negb andb]. rewrite (events_bind_Ret _ _ tt (dfg_stage_outcome g)).
  replace (Z.of_nat (List.length (command :: rest)) <? 1) with false;
    [reflexivity|].
  symmetry. apply Z.ltb_ge. simpl List.length. lia.
Qed.

Lemma main_dfg_events g0 opts args g :
  outcome (handleCommandLineArgments g0 opts) = Ret g ->
  g_dfg g = true ->
  exists post,
    events (main g0 opts args) = events (dfg_stage g) ++ post /\
    Forall pipeline_fact post.
Proof.
  intros H Hd. destruct args as [|command rest].
  - exists []. rewrite (main_after_options _ _ _ _ H), Hd.
    cbn [negb andb]. rewrite (events_bind_Ret _ _ tt (dfg_stage_outcome g)).
    split; [reflexivity | constructor].
  - exists (events (run_pipeline g command)).
    split; [apply main_dfg_then_pipeline; assumption|].
    apply run_pipeline_events.
Qed.

(** C9.  On a command line with [--ibl-dfg] and without [--size], started
    with the output size unset, the DFG LUT is generated at size 128 and at
    no other size; the cubemap generated in the same run is created with
    dimension 256. *)
Theorem dfg_default_size g0 opts args g :
  g_output_size g0 = 0 ->
  (exists a, In (opt_ibl_dfg, a) opts) ->
  (forall a, ~ In (opt_size, a) opts) ->
  outcome (handleCommandLineArgments g0 opts) = Ret g ->
  In (Call_iblLutDfg (g_dfg_filename g) 128 (g_dfg_multiscatter g))
     (events (main g0 opts args)) /\
  (forall filename size multiscatter,
     In (Call_iblLutDfg filename size multiscatter)
        (events (main g0 opts args)) ->
     size = 128) /\
  (forall command rest,
     args = command :: rest ->
     path_exists command = false ->
     exists pre post,
       events (main g0 opts args) = pre ++ Call_create 256 None :: post /\
       forall d h, ~ In (Call_create d h) pre).
Proof.
  intros H0 [a Ha] Hno H.
  assert (Hd : g_dfg g = true) by exact (dfg_requested _ _ _ _ Ha H).
  assert (Hs : g_output_size g = 0).
  { rewrite (output_size_untouched _ _ _ Hno H). exact H0. }
  destruct (main_dfg_events g0 opts args g H Hd) as [post [E Hpost]].
  rewrite E, (dfg_stage_events g Hd), (output_size_or_default g 128 Hs).
  split; [|split].
  - apply in_or_app. left. apply in_or_app. right. left. reflexivity.
  - intros f s m Hin. apply in_app_or in Hin. destruct Hin as [Hin | Hin].
    + apply in_app_or in Hin. destruct Hin as [Hin | [Hin | []]].
      * unfold say in Hin. destruct (g_quiet g); simpl in Hin;
          [destruct Hin | destruct Hin as [Hin | []]; discriminate Hin].
      * injection Hin as _ <- _. reflexivity.
    + rewrite Forall_forall in Hpost. exact (False_ind _ (Hpost _ Hin)).
  - intros command rest -> Hex.
    rewrite <- (output_size_or_default g 128 Hs), <- (dfg_stage_events g Hd),
      <- E.
    rewrite (main_dfg_then_pipeline _ _ _ _ _ H Hd).
    unfold run_pipeline. set (g' := apply_debug (apply_deploy command g)).
    assert (Hs' : g_output_size g' = 0).
    { unfold g'.
      rewrite apply_debug_output_size, apply_deploy_output_size. exact Hs. }
    unfold load_base. rewrite Hex.
    destruct (generate_image_events g' command) as [post' E'].
    rewrite (output_size_or_default g' 256 Hs') in E'.
    destruct (events_bind_prefix (generate_image g' command)
                (fun base =>
                   bind (generateMipmaps [base]) (fun levels =>
                   bind (mirror_stage g' levels) (fun levels =>
                   bind (sh_stage g' command levels) (fun _ =>
                   bind (is_mipmap_stage g' command levels) (fun _ =>
                   bind (prefilter_stage g' command levels) (fun _ =>
                   bind (extract_stage g' command levels) (fun _ =>
                   ret 0)))))))) as [more E''].
    exists (events (dfg_stage g) ++ events (say g' "Generating image...")).
    exists (post' ++ more). split.
    + rewrite E'', E', <- !app_assoc. reflexivity.
    + intros d h Hin. apply in_app_or in Hin. destruct Hin as [Hin | Hin].
      * rewrite (dfg_stage_events g Hd) in Hin.
        apply in_app_or in Hin. destruct Hin as [Hin | [Hin | []]].
        -- exact (no_create_in_say _ _ _ _ Hin).
        -- discriminate Hin.
      * exact (no_create_in_say _ _ _ _ Hin).
Qed.

(** ** Dispatch on the aspect ratio *)

Lemma size_t_range z : 0 <= size_t z < 2 ^ 64.
Proof. unfold size_t. apply Z.mod_pos_bound. reflexivity. Qed.

(** An image twice as wide as high is no cross, as long as it has a width
    at all or [isPOT] rejects 0. *)
Lemma equirectangular_not_cross width height :
  isPOT 0 = false \/ width <> 0 ->
  0 <= width < 2 ^ 64 -> 0 <= height < 2 ^ 64 ->
  is_equirectangular width height = true ->
  is_cross width height = false.
Proof.
  unfold is_equirectangular, is_cross. intros H0 Hw Hh E.
  apply Z.eqb_eq in E.
  destruct (Z.eq_dec width 0) as [Z0 | NZ].
  - destruct H0 as [H0 | H0]; [|contradiction]. rewrite Z0.
    rewrite H0. cbn [andb orb].
    destruct (Z.eqb_spec (size_t (height * 3)) (size_t (0 * 4))) as [C | C];
      [|apply andb_false_r].
    rewrite (thrice_zero height Hh C), H0. reflexivity.
  - destruct (twice_is_no_cross width height) as [C1 C2];
      [lia | exact Hh | exact E |].
    apply Z.eqb_neq in C1, C2. rewrite C1, C2, !andb_false_r. reflexivity.
Qed.

Definition aspect_ratio_errors (width height : Z) : list event :=
  [Cerr ("Aspect ratio not supported: " ++ string_of_Z width
         ++ "x" ++ string_of_Z height);
   Cerr "Supported aspect ratios:";
   Cerr "  2:1, lat/long or equirectangular";
   Cerr "  3:4, vertical cross (height must be power of two)";
   Cerr "  4:3, horizontal cross (width must be power of two)"].

(** The three ways [load_image] goes on a valid RGB image. *)
Lemma load_image_dispatch g iname :
  isValid (decode iname) = true ->
  getChannelsCount (decode iname) = 3 ->
  let width := size_t (getWidth (clamp (decode iname))) in
  let height := size_t (getHeight (clamp (decode iname))) in
  let before :=
    events (say g "Decoding image...") ++ [Call_decode iname; Call_clamp] in
  if is_cross width height then
    events (load_image g iname) =
    before ++ events (say g "Loading cross... ") ++
    [Call_create (Z.max height width / 4) (Some (width >? height));
     Call_copyImage; Call_makeSeamless]
  else if is_equirectangular width height then
    events (load_image g iname) =
    before ++ events (say g "Converting equirectangular image... ") ++
    [Call_create (output_size_or g 256) None;
     Call_equirectangularToCubemap; Call_makeSeamless]
  else
    load_image g iname = (before ++ aspect_ratio_errors width height, Exit 0).
Proof.
  intros Hv Hc width height before. unfold load_image.
  rewrite Hv, Hc. cbn [negb]. change (3 =? 3) with true. cbn [negb].
  fold width height. unfold before, say, create, call_makeSeamless.
  destruct (is_cross width height);
    [|destruct (is_equirectangular width height)];
    destruct (g_quiet g); reflexivity.
Qed.

(** C5.  A decoded RGB image (of non-zero width, or any if [isPOT]
    rejects 0) is loaded as a cross exactly when its width is a power of two and [width*3 == height*4], or
    its height is a power of two and [height*3 == width*4]; it is converted
    from equirectangular exactly when [width == 2*height]; otherwise the
    aspect ratio is reported and the run exits without creating a cubemap
    or invoking a projection. *)
Theorem aspect_ratio_dispatch g iname :
  path_exists iname = true ->
  isValid (decode iname) = true ->
  getChannelsCount (decode iname) = 3 ->
  isPOT 0 = false \/ size_t (getWidth (clamp (decode iname))) <> 0 ->
  let width := size_t (getWidth (clamp (decode iname))) in
  let height := size_t (getHeight (clamp (decode iname))) in
  let cross :=
    (isPOT width && (size_t (width * 3) =? size_t (height * 4))) ||
    (isPOT height && (size_t (height * 3) =? size_t (width * 4))) in
  let equirectangular := width =? size_t (2 * height) in
  (In Call_copyImage (events (load_base g iname)) <-> cross = true) /\
  (In Call_equirectangularToCubemap (events (load_base g iname))
   <-> equirectangular = true) /\
  (cross = false -> equirectangular = false ->
   load_base g iname =
   (events (say g "Decoding image...") ++ [Call_decode iname; Call_clamp]
    ++ aspect_ratio_errors width height, Exit 0) /\
   outcome (run_pipeline g iname) = Exit 0 /\
   forall e, In e (events (run_pipeline g iname)) ->
     (exists s, e = Cout s) \/ (exists s, e = Cerr s) \/
     e = Call_decode iname \/ e = Call_clamp).
Proof.
  intros Hex Hv Hc Hw width height cross equirectangular.
  assert (Hexcl : equirectangular = true -> cross = false).
  { apply equirectangular_not_cross;
      [exact Hw | apply size_t_range | apply size_t_range]. }
  assert (D : forall g', load_base g' iname = load_image g' iname).
  { intros g'. unfold load_base. rewrite Hex. reflexivity. }
  pose proof (load_image_dispatch g iname Hv Hc) as L.
  cbv zeta in L. fold width height in L.
  change (is_cross width height) with cross in L.
  change (is_equirectangular width height) with equirectangular in L.
  rewrite D. split; [|split].
  - destruct cross.
    + rewrite L. split; [reflexivity|]. intros _.
      apply in_or_app. right. apply in_or_app. right. simpl. auto.
    + split; [|discriminate]. intros Hin. exfalso.
      destruct equirectangular; [rewrite L in Hin | rewrite L in Hin];
        unfold say in Hin; destruct (g_quiet g); simpl in Hin;
        repeat (destruct Hin as [Hin | Hin]; [discriminate Hin|]);
        exact Hin.
  - destruct equirectangular.
    + rewrite (Hexcl eq_refl) in L. rewrite L. split; [reflexivity|].
      intros _. apply in_or_app. right. apply in_or_app. right. simpl. auto.
    + split; [|discriminate]. intros Hin. exfalso.
      destruct cross; rewrite L in Hin;
        unfold say in Hin; destruct (g_quiet g); simpl in Hin;
        repeat (destruct Hin as [Hin | Hin]; [discriminate Hin|]);
        exact Hin.
  - intros Hc1 Hc2. rewrite Hc1, Hc2 in L.
    split; [rewrite L, <- app_assoc; reflexivity|].
    pose proof (load_image_dispatch
                  (apply_debug (apply_deploy iname g)) iname Hv Hc) as L'.
    cbv zeta in L'. fold width height in L'.
    change (is_cross width height) with cross in L'.
    change (is_equirectangular width height) with equirectangular in L'.
    rewrite Hc1, Hc2 in L'.
    unfold run_pipeline. rewrite D, L'. split; [reflexivity|].
    intros e Hin. unfold bind, events, say in Hin.
    destruct (g_quiet _); simpl in Hin;
      repeat (destruct Hin as [<- | Hin]; eauto 6); destruct Hin.
Qed.

(** ** Roughness zero *)

(** C4.  With linear roughness 0 the roughness filter returns the
    destination holding a direct copy of the texels of level 0 of the
    source chain, whatever the importance sampling would compute; and when
    the blur of [--extract-blur] is 0 the driver hands level 0 itself to
    face extraction without calling the filter. *)
Theorem roughness_zero_direct_copy dst base rest n g iname :
  (forall linearRoughness,
     PrimFloat.eqb linearRoughness 0 = true ->
     roughnessFilter dst (base :: rest) linearRoughness n
     = with_texels dst (texelAt base)) /\
  (g_extract_faces g = true ->
   PrimFloat.eqb (g_extract_blur g) 0 = true ->
   extract_stage g iname (base :: rest) =
   (events (say g "Extract faces...") ++
    [Call_extractCubemapFaces iname base (g_extract_dir g)], Ret tt)).
Proof.
  split.
  - intros lr H. unfold roughnessFilter. rewrite H. reflexivity.
  - intros Hf Hb. unfold extract_stage, level0, say.
    rewrite Hf, bind_ret_l, Hb. cbn [negb].
    destruct (g_quiet g); reflexivity.
Qed.

(** ** The frame of makeSeamless *)

(** C6.  [makeSeamless] rewrites the one-texel border ring only: every
    interior texel of every face, and every texel off the ring, holds
    after the call what it held before, and the dimension is unchanged. *)
Theorem makeSeamless_frame (c : Cubemap T) f x y :
  (interior (getDimensions c) x y ->
   texelAt (makeSeamless neighbour corner_rule c) f x y = texelAt c f x y) /\
  (0 <= getDimensions c -> ~ on_ring (getDimensions c) x y ->
   texelAt (makeSeamless neighbour corner_rule c) f x y = texelAt c f x y) /\
  getDimensions (makeSeamless neighbour corner_rule c) = getDimensions c.
Proof.
  split; [|split].
  - apply makeSeamless_interior.
  - apply makeSeamless_off_ring.
  - reflexivity.
Qed.

(** ** Dimensions of the cubemaps a run creates *)

Definition is_pow2 (d : Z) : Prop := exists k, 0 <= k /\ d = 2 ^ k.

(** What [isPOT] has to get right for the argument below: a value it
    accepts is 0 or a power of two. *)
Definition isPOT_sound : Prop :=
  forall v, isPOT v = true -> v = 0 \/ is_pow2 v.

(** Decoded images are not empty and four times their width and height
    fits a [size_t] with room to spare. *)
Definition images_fit : Prop :=
  forall path,
    0 < getWidth (clamp (decode path)) < 2 ^ 62 /\
    0 < getHeight (clamp (decode path)) < 2 ^ 62.

Definition creates_pow2 (e : event) : Prop :=
  match e with
  | Call_create d _ => is_pow2 d
  | _ => True
  end.

Definition pow2_levels (levels : list (Cubemap T)) : Prop :=
  Forall (fun c => is_pow2 (getDimensions c)) levels.

Lemma is_pow2_256 : is_pow2 256.
Proof. exists 8. split; [lia | reflexivity]. Qed.

Lemma quarter_pow2 a b :
  is_pow2 a -> a * 3 = b * 4 -> is_pow2 (Z.max b a / 4).
Proof.
  intros [k [Hk ->]] E.
  destruct (Z.eq_dec k 0) as [-> | H0]; [simpl in E; lia|].
  destruct (Z.eq_dec k 1) as [-> | H1]; [simpl in E; lia|].
  replace k with (k - 2 + 2) in * by lia.
  rewrite Z.pow_add_r in * by lia. change (2 ^ 2) with 4 in *.
  assert (Hp : 0 < 2 ^ (k - 2)) by (apply Z.pow_pos_nonneg; lia).
  rewrite Z.max_r by lia. rewrite Z.div_mul by lia.
  exists (k - 2). split; [lia | reflexivity].
Qed.

Lemma size_t_small z : 0 <= z < 2 ^ 64 -> size_t z = z.
Proof. intros H. unfold size_t. apply Z.mod_small. exact H. Qed.

Lemma cross_dim_pow2 width height :
  isPOT_sound ->
  0 < width < 2 ^ 62 -> 0 < height < 2 ^ 62 ->
  is_cross width height = true ->
  is_pow2 (Z.max height width / 4).
Proof.
  intros Hs Hw Hh C. unfold is_cross in C.
  change (2 ^ 62) with 4611686018427387904 in *.
  rewrite !size_t_small in C
    by (change (2 ^ 64) with 18446744073709551616; lia).
  apply orb_true_iff in C. destruct C as [C | C];
    apply andb_true_iff in C; destruct C as [P E]; apply Z.eqb_eq in E;
    destruct (Hs _ P) as [Z0 | P2]; try lia.
  - apply quarter_pow2; assumption.
  - rewrite Z.max_comm. apply quarter_pow2; assumption.
Qed.

Lemma output_size_or_pow2 g dflt :
  isPOT_sound ->
  g_output_size g = 0 \/ isPOT (g_output_size g) = true ->
  is_pow2 dflt ->
  is_pow2 (output_size_or g dflt).
Proof.
  intros Hs Hg Hd. unfold output_size_or.
  destruct (Z.eqb_spec (g_output_size g) 0) as [E | E]; [exact Hd|].
  destruct Hg as [Hg | Hg]; [contradiction|].
  destruct (Hs _ Hg); [contradiction | assumption].
Qed.

Lemma create_Ret d h c :
  outcome (create d h) = Ret c -> c = mkCubemap d (fun _ _ _ => blank).
Proof. intros H. injection H as <-. reflexivity. Qed.

Lemma call_makeSeamless_Ret c c' :
  outcome (call_makeSeamless c) = Ret c' ->
  c' = makeSeamless neighbour corner_rule c.
Proof. intros H. injection H as <-. reflexivity. Qed.

Lemma ret_Ret {A} (a b : A) : outcome (ret a) = Ret b -> b = a.
Proof. intros H. injection H as <-. reflexivity. Qed.

Ltac ret_all :=
  repeat match goal with
  | H : outcome (bind _ _) = Ret _ |- _ =>
      apply bind_Ret_inv in H; destruct H as [? [? H]]; cbv beta in H
  | H : outcome (if ?c then _ else _) = Ret _ |- _ => destruct c eqn:?
  | H : outcome (match ?x with _ => _ end) = Ret _ |- _ => destruct x eqn:?
  | H : outcome (exit _) = Ret _ |- _ => discriminate H
  | H : outcome undefined = Ret _ |- _ => discriminate H
  | H : outcome (ret _) = Ret _ |- _ => apply ret_Ret in H; subst
  | H : outcome (emit _) = Ret _ |- _ => clear H
  | H : outcome (say _ _) = Ret _ |- _ => clear H
  | H : outcome (create _ _) = Ret _ |- _ => apply create_Ret in H; subst
  | H : outcome (call_makeSeamless _) = Ret _ |- _ =>
      apply call_makeSeamless_Ret in H; subst
  end.

Section Dimensions.

Hypothesis sound : isPOT_sound.
Hypothesis fit : images_fit.

Variable g : Globals.
Hypothesis size_ok : g_output_size g = 0 \/ isPOT (g_output_size g) = true.

Lemma image_dim_pow2 iname :
  is_cross (size_t (getWidth (clamp (decode iname))))
           (size_t (getHeight (clamp (decode iname)))) = true ->
  is_pow2 (Z.max (size_t (getHeight (clamp (decode iname))))
                 (size_t (getWidth (clamp (decode iname)))) / 4).
Proof using sound fit size_ok.
  destruct (fit iname) as [Hw Hh].
  rewrite !size_t_small
    by (change (2 ^ 62) with 4611686018427387904 in *;
        change (2 ^ 64) with 18446744073709551616; lia).
  apply cross_dim_pow2; assumption.
Qed.

Lemma default_dim_pow2 : is_pow2 (output_size_or g 256).
Proof using sound size_ok.
  apply output_size_or_pow2;
    [exact sound | exact size_ok | exact is_pow2_256].
Qed.

Lemma load_base_creates iname :
  Forall creates_pow2 (events (load_base g iname)).
Proof using sound fit size_ok.
  unfold load_base, load_image, generate_image.
  events_ok; try exact I; cbn [creates_pow2];
    try apply default_dim_pow2.
  apply image_dim_pow2. assumption.
Qed.

Lemma load_base_dim iname c :
  outcome (load_base g iname) = Ret c -> is_pow2 (getDimensions c).
Proof using sound fit size_ok.
  unfold load_base, load_image, generate_image. intros H.
  ret_all; cbn [getDimensions makeSeamless with_texels];
    try apply default_dim_pow2.
  apply image_dim_pow2. assumption.
Qed.

End Dimensions.

Lemma half_pow2 d : 1 < d -> is_pow2 d -> is_pow2 (d / 2).
Proof.
  intros Hd [k [Hk ->]]. exists (k - 1).
  destruct (Z.eq_dec k 0) as [-> | H0]; [simpl in Hd; lia|].
  split; [lia|].
  replace k with (Z.succ (k - 1)) at 1 by lia.
  rewrite Z.pow_succ_r by lia.
  rewrite Z.mul_comm, Z.div_mul by lia. reflexivity.
Qed.

Lemma mip_levels_dims (src : Cubemap T) :
  is_pow2 (getDimensions src) -> pow2_levels (mip_levels src).
Proof.
  funelim (mip_levels src); intros Hp.
  - assert (Hn : is_pow2 (getDimensions (next_level src)))
      by (rewrite next_level_getDimensions; apply half_pow2; assumption).
    constructor; [exact Hn|].
    match goal with IH : _ -> pow2_levels _ |- _ => apply IH; exact Hn end.
  - constructor.
Qed.

Lemma generateMipmaps_dims levels levels' :
  pow2_levels levels ->
  outcome (generateMipmaps levels) = Ret levels' ->
  pow2_levels levels'.
Proof.
  intros Hl H. destruct levels as [|base rest]; [discriminate H|].
  injection H as <-.
  change (pow2_levels ((base :: rest) ++ mip_levels base)).
  apply Forall_app. split; [exact Hl|].
  apply mip_levels_dims. inversion Hl. assumption.
Qed.

Lemma generateMipmaps_creates levels :
  pow2_levels levels ->
  Forall creates_pow2 (events (generateMipmaps levels)).
Proof.
  intros Hl. destruct levels as [|base rest]; [constructor|].
  assert (Hm : pow2_levels (mip_levels base))
    by (apply mip_levels_dims; inversion Hl; assumption).
  unfold generateMipmaps, events. simpl fst.
  induction Hm as [|c r Hc Hr IH]; simpl; [constructor|].
  constructor; [exact Hc|]. repeat (constructor; [exact I|]). exact IH.
Qed.

Lemma mirror_levels_creates levels :
  pow2_levels levels ->
  Forall creates_pow2 (events (mirror_levels levels)).
Proof.
  induction 1 as [|level rest Hl Hr IH]; [constructor|].
  rewrite mirror_levels_cons. events_ok; try exact I; assumption.
Qed.

Lemma mirror_levels_dims levels : forall mirrored,
  pow2_levels levels ->
  outcome (mirror_levels levels) = Ret mirrored ->
  pow2_levels mirrored.
Proof.
  induction levels as [|level rest IH]; intros mirrored Hl H.
  - apply ret_Ret in H. subst. constructor.
  - rewrite mirror_levels_cons in H. inversion Hl; subst.
    apply bind_Ret_inv in H. destruct H as [c [Hc H]].
    apply create_Ret in Hc. subst c.
    apply bind_Ret_inv in H. destruct H as [u [_ H]].
    apply bind_Ret_inv in H. destruct H as [c [Hc H]].
    apply call_makeSeamless_Ret in Hc. subst c.
    apply bind_Ret_inv in H. destruct H as [m [Hm H]].
    apply ret_Ret in H. subst mirrored.
    constructor; [assumption|]. apply IH; assumption.
Qed.

Lemma mirror_stage_creates g levels :
  pow2_levels levels ->
  Forall creates_pow2 (events (mirror_stage g levels)).
Proof.
  intros Hl. unfold mirror_stage. events_ok.
  apply mirror_levels_creates. exact Hl.
Qed.

Lemma mirror_stage_dims g levels mirrored :
  pow2_levels levels ->
  outcome (mirror_stage g levels) = Ret mirrored ->
  pow2_levels mirrored.
Proof.
  unfold mirror_stage. intros Hl H. destruct (g_mirror g).
  - apply bind_Ret_inv in H. destruct H as [u [_ H]].
    eapply mirror_levels_dims; eassumption.
  - apply ret_Ret in H. subst. exact Hl.
Qed.

Lemma consumers_creates g iname levels :
  isPOT_sound ->
  g_output_size g = 0 \/ isPOT (g_output_size g) = true ->
  pow2_levels levels ->
  Forall creates_pow2
    (events (bind (sh_stage g iname levels) (fun _ =>
             bind (is_mipmap_stage g iname levels) (fun _ =>
             bind (prefilter_stage g iname levels) (fun _ =>
             bind (extract_stage g iname levels) (fun _ => ret 0)))))).
Proof.
  intros Hs Hg Hl.
  unfold sh_stage, is_mipmap_stage, prefilter_stage, extract_stage.
  events_ok; try exact I. cbn [creates_pow2].
  apply output_size_or_pow2; [exact Hs | exact Hg |].
  match goal with
  | H : outcome (level0 levels) = Ret ?c |- is_pow2 (getDimensions ?c) =>
      destruct levels; [discriminate H|];
      apply ret_Ret in H; subst; inversion Hl; assumption
  end.
Qed.

Lemma run_pipeline_creates g iname :
  isPOT_sound -> images_fit ->
  g_output_size g = 0 \/ isPOT (g_output_size g) = true ->
  Forall creates_pow2 (events (run_pipeline g iname)).
Proof.
  intros Hs Hf Hg. unfold run_pipeline.
  set (g' := apply_debug (apply_deploy iname g)).
  assert (Hg' : g_output_size g' = 0 \/ isPOT (g_output_size g') = true).
  { unfold g'.
    rewrite apply_debug_output_size, apply_deploy_output_size. exact Hg. }
  apply Forall_events_bind; [apply load_base_creates; assumption|].
  intros base Hbase.
  assert (Hb : pow2_levels [base]).
  { constructor; [|constructor]. eapply load_base_dim; eassumption. }
  apply Forall_events_bind; [apply generateMipmaps_creates; exact Hb|].
  intros levels Hlevels.
  assert (Hl : pow2_levels levels)
    by (eapply generateMipmaps_dims; eassumption).
  apply Forall_events_bind; [apply mirror_stage_creates; exact Hl|].
  intros mirrored Hmirrored.
  apply consumers_creates; [exact Hs | exact Hg' |].
  eapply mirror_stage_dims; eassumption.
Qed.

(** C7.  A [--size] whose value is not a power of two is reported and ends
    the run on the spot: nothing but the message is produced.  After option
    handling the output size is the one the program started with or one
    that passed the power-of-two test; and with a sound test, the size unset
    at program start and images that fit, every cubemap a run creates has
    a power of two as its dimension. *)
Theorem size_must_be_power_of_two g0 :
  (forall before optarg after args st v,
     outcome (parse_loop before (mkParse g0 3 false)) = Ret st ->
     stoul (arg_of optarg) = Value v ->
     isPOT v = false ->
     main g0 (before ++ (opt_size, optarg) :: after) args
     = ([Cerr "output size must be a power of two"], Exit 0)) /\
  (forall opts g,
     outcome (handleCommandLineArgments g0 opts) = Ret g ->
     g_output_size g = g_output_size g0 \/
     isPOT (g_output_size g) = true) /\
  (forall opts args,
     isPOT_sound -> images_fit -> g_output_size g0 = 0 ->
     Forall creates_pow2 (events (main g0 opts args))).
Proof.
  split; [|split].
  - intros before optarg after args st v. apply main_size_rejected.
  - intros opts g. apply output_size_checked.
  - intros opts args Hs Hf H0. unfold main. apply Forall_events_bind.
    + eapply Forall_impl; [|apply handle_events].
      intros e [-> | [-> | [s ->]]]; exact I.
    + intros g Hg.
      assert (Hsz : g_output_size g = 0 \/ isPOT (g_output_size g) = true).
      { destruct (output_size_checked _ _ _ Hg) as [E | E];
          [left; rewrite E; exact H0 | right; exact E]. }
      unfold dfg_stage. events_ok; try exact I;
        apply run_pipeline_creates; assumption.
Qed.

(** ** How a run ends *)







Lemma outcome_bind_returned {A B} (m : M A) (k : A -> M B) a :
  outcome m = Ret a -> outcome (bind m k) = outcome (k a).
Proof.
  destruct m as [l r]. intros H. simpl in H. subst r.
  rewrite bind_Ret. reflexivity.
Qed.

(** The mirror loop returns one cubemap per level, of the same dimension. *)
Lemma mirror_levels_returns levels :
  exists mirrored,
    outcome (mirror_levels levels) = Ret mirrored /\
    map getDimensions mirrored = map getDimensions levels.
Proof.
  induction levels as [|level rest [mirrored [H E]]].
  - exists []. split; reflexivity.
  - exists (makeSeamless neighbour corner_rule
              (with_texels (mkCubemap (getDimensions level)
                                      (fun _ _ _ => blank))
                 (mirror_texels (mkCubemap (getDimensions level)
                                           (fun _ _ _ => blank)) level))
            :: mirrored).
    split.
    + rewrite mirror_levels_cons.
      do 3 (erewrite outcome_bind_returned by reflexivity).
      rewrite (outcome_bind_returned _ _ _ H). reflexivity.
    + simpl. rewrite E. reflexivity.
Qed.

Lemma mirror_stage_returns g levels :
  exists mirrored,
    outcome (mirror_stage g levels) = Ret mirrored /\
    map getDimensions mirrored = map getDimensions levels.
Proof.
  unfold mirror_stage. destruct (g_mirror g).
  - destruct (mirror_levels_returns levels) as [mirrored [H E]].
    exists mirrored. split; [|exact E].
    rewrite (outcome_bind_returned _ _ tt (outcome_say g _)). exact H.
  - exists levels. split; reflexivity.
Qed.







(** The run when the step of an option does not return: what the options
    before it printed is nothing, and what follows is never looked at. *)
Lemma main_ends_at_option g0 before o optarg after args st l r :
  outcome (parse_loop before (mkParse g0 3 false)) = Ret st ->
  handle_option st o optarg = (l, r) ->
  (forall st', r <> Ret st') ->
  events (main g0 (before ++ (o, optarg) :: after) args) = l /\
  match r with
  | Ret _ => False
  | Exit c => outcome (main g0 (before ++ (o, optarg) :: after) args) = Exit c
  | Uncaught e =>
      outcome (main g0 (before ++ (o, optarg) :: after) args) = Uncaught e
  | Undefined =>
      outcome (main g0 (before ++ (o, optarg) :: after) args) = Undefined
  end.
Proof.
  intros Hb Hs Hr. unfold main, handleCommandLineArgments.
  rewrite parse_loop_app.
  rewrite (bind_silent _ _ _ Hb (parse_loop_silent _ _ _ Hb)).
  rewrite parse_loop_cons, Hs.
  destruct r as [st' | c | e |]; [exfalso; exact (Hr st' eq_refl) | | |];
    split; reflexivity.
Qed.


(** X9.  A numeric option whose argument the conversion rejects ends the
    run by an exception nobody catches, without a message: [std::stoul] for
    [--size], [std::stoi] for [--ibl-samples], [std::stod] for
    [--extract-blur]; for [--sh] only [std::out_of_range] escapes. *)
Theorem bad_number_is_uncaught g0 before optarg after args st e :
  outcome (parse_loop before (mkParse g0 3 false)) = Ret st ->
  (stoul (arg_of optarg) = Raise e ->
   main g0 (before ++ (opt_size, optarg) :: after) args
   = ([], Uncaught e)) /\
  (stoi (arg_of optarg) = Raise e ->
   main g0 (before ++ (opt_ibl_samples, optarg) :: after) args
   = ([], Uncaught e)) /\
  (stod (arg_of optarg) = Raise e ->
   main g0 (before ++ (opt_extract_blur, optarg) :: after) args
   = ([], Uncaught e)) /\
  (stoi (arg_of optarg) = Raise out_of_range ->
   main g0 (before ++ (opt_sh, optarg) :: after) args
   = ([], Uncaught out_of_range)).
Proof.
  intros Hb.
  assert (E : forall o x,
            handle_option st o optarg = ([], Uncaught x) ->
            main g0 (before ++ (o, optarg) :: after) args
            = ([], Uncaught x)).
  { intros o x Hs.
    destruct (main_ends_at_option g0 before o optarg after args st []
                (Uncaught x) Hb Hs) as [E1 E2]; [discriminate|].
    destruct (main g0 (before ++ (o, optarg) :: after) args) as [l' r'].
    simpl in E1, E2. subst. reflexivity. }
  repeat split; intros H; apply E; unfold handle_option, unguarded;
    cbv zeta; rewrite H; reflexivity.
Qed.




(** X2.  With [--ibl-dfg] and without an input argument the run computes
    the DFG LUT, at [--size] or 128, and returns 0: no image is decoded and
    no cubemap is created. *)
Theorem dfg_only_run g0 opts g a :
  In (opt_ibl_dfg, a) opts ->
  outcome (handleCommandLineArgments g0 opts) = Ret g ->
  main g0 opts [] =
  (events (say g "Generating IBL DFG LUT...") ++
   [Call_iblLutDfg (g_dfg_filename g) (output_size_or g 128)
                   (g_dfg_multiscatter g)],
   Ret 0).
Proof.
  intros Hin H. pose proof (dfg_requested _ _ _ _ Hin H) as Hd.
  rewrite (main_after_options _ _ _ _ H), Hd.
  unfold dfg_stage, say. rewrite Hd. destruct (g_quiet g); reflexivity.
Qed.

(** ** The pipeline, stage by stage *)

Lemma bind_returned {A B} (m : M A) (k : A -> M B) a :
  outcome m = Ret a ->
  bind m k = (events m ++ events (k a), outcome (k a)).
Proof.
  destruct m as [l r]. intros H. simpl in H. subst r. apply bind_Ret.
Qed.

Lemma apply_debug_quiet g : g_quiet (apply_debug g) = g_quiet g.
Proof.
  unfold apply_debug.
  destruct (g_debug g), (g_prefilter g && negb (g_is_mipmap g)); reflexivity.
Qed.

Lemma apply_deploy_quiet iname g : g_quiet (apply_deploy iname g) = g_quiet g.
Proof. unfold apply_deploy. destruct (g_deploy g); reflexivity. Qed.

Lemma say_after_deploy_debug iname g s :
  say (apply_debug (apply_deploy iname g)) s = say g s.
Proof.
  unfold say. rewrite apply_debug_quiet, apply_deploy_quiet. reflexivity.
Qed.

Lemma sh_stage_outcome g iname level rest :
  outcome (sh_stage g iname (level :: rest)) = Ret tt.
Proof.
  unfold sh_stage, say, level0.
  destruct (negb (g_sh_compute g =? 0)), (g_quiet g); reflexivity.
Qed.

Lemma is_mipmap_stage_outcome g iname levels :
  outcome (is_mipmap_stage g iname levels) = Ret tt.
Proof.
  unfold is_mipmap_stage, say.
  destruct (g_is_mipmap g), (g_quiet g); reflexivity.
Qed.

Lemma prefilter_stage_outcome g iname levels :
  outcome (prefilter_stage g iname levels) = Ret tt.
Proof.
  unfold prefilter_stage, say.
  destruct (g_prefilter g), (g_quiet g); reflexivity.
Qed.

Lemma extract_stage_outcome g iname level rest :
  outcome (extract_stage g iname (level :: rest)) = Ret tt.
Proof.
  unfold extract_stage, say, level0, create.
  destruct (g_extract_faces g); [|reflexivity]. rewrite bind_ret_l.
  destruct (negb (PrimFloat.eqb (g_extract_blur g) 0)), (g_quiet g);
    reflexivity.
Qed.

(** Once the base cubemap is loaded the pipeline runs to its end: the
    stages follow one another and [main] returns 0. *)
Lemma run_pipeline_stages g iname base :
  let g' := apply_debug (apply_deploy iname g) in
  outcome (load_base g' iname) = Ret base ->
  exists levels,
    outcome (mirror_stage g' ([base] ++ mip_levels base)) = Ret levels /\
    map getDimensions levels
    = map getDimensions ([base] ++ mip_levels base) /\
    run_pipeline g iname =
    (events (load_base g' iname) ++
     events (generateMipmaps [base]) ++
     events (mirror_stage g' ([base] ++ mip_levels base)) ++
     events (sh_stage g' iname levels) ++
     events (is_mipmap_stage g' iname levels) ++
     events (prefilter_stage g' iname levels) ++
     events (extract_stage g' iname levels), Ret 0).
Proof.
  intros g' Hb.
  destruct (mirror_stage_returns g' ([base] ++ mip_levels base))
    as [levels [Hm E]].
  exists levels. split; [exact Hm|]. split; [exact E|].
  destruct levels as [|level rest]; [discriminate E|].
  unfold run_pipeline. fold g'.
  rewrite (bind_returned _ _ _ Hb).
  rewrite (bind_returned (generateMipmaps [base]) _
             ([base] ++ mip_levels base) eq_refl).
  rewrite (bind_returned _ _ _ Hm).
  rewrite (bind_returned _ _ tt (sh_stage_outcome g' iname level rest)).
  rewrite (bind_returned _ _ tt (is_mipmap_stage_outcome g' iname _)).
  rewrite (bind_returned _ _ tt (prefilter_stage_outcome g' iname _)).
  rewrite (bind_returned _ _ tt (extract_stage_outcome g' iname level rest)).
  cbn [events outcome fst snd ret]. rewrite app_nil_r. reflexivity.
Qed.

(** The calls that set a cubemap up: decoding, creation, the writers and
    [makeSeamless]. *)
Definition setup_call (e : event) : Prop :=
  match e with
  | Call_decode _ | Call_clamp | Call_create _ _ | Call_copyImage
  | Call_equirectangularToCubemap | Call_generateUVGrid _ | Call_brdf _
  | Call_makeSeamless | Call_downsample | Call_mirrorCubemap => True
  | _ => False
  end.

Definition is_cout (e : event) : Prop :=
  match e with Cout _ => True | _ => False end.

Definition is_cerr (e : event) : Prop :=
  match e with Cerr _ => True | _ => False end.

Lemma generateMipmaps_setup levels :
  Forall setup_call (events (generateMipmaps levels)).
Proof.
  destruct levels as [|base rest]; [constructor|].
  unfold generateMipmaps, events. simpl fst.
  induction (mip_levels base) as [|c r IH]; simpl; [constructor|].
  repeat (constructor; [exact I|]). exact IH.
Qed.

Lemma mirror_levels_setup levels :
  Forall setup_call (events (mirror_levels levels)).
Proof.
  induction levels as [|level rest IH]; [constructor|].
  rewrite mirror_levels_cons. events_ok; try exact I. exact IH.
Qed.

Lemma mirror_stage_setup g levels :
  Forall (fun e => setup_call e \/ is_cout e)
         (events (mirror_stage g levels)).
Proof.
  unfold mirror_stage. destruct (g_mirror g); [|constructor].
  apply Forall_events_bind.
  - apply Forall_events_say. right. exact I.
  - intros _ _. eapply Forall_impl; [|apply mirror_levels_setup].
    intros e He. left. exact He.
Qed.

Lemma load_base_setup g iname :
  Forall (fun e => setup_call e \/ is_cout e \/ is_cerr e)
         (events (load_base g iname)).
Proof.
  unfold load_base, load_image, generate_image.
  repeat match goal with
  | |- Forall _ (events (say _ _)) =>
      apply Forall_events_say; right; left; exact I
  | _ => progress events_ok
  end; simpl; auto.
Qed.

(** Where each consumer call is found. *)
Lemma sh_stage_call g iname level rest :
  g_sh_compute g <> 0 ->
  In (Call_sphericalHarmonics iname level)
     (events (sh_stage g iname (level :: rest))).
Proof.
  intros H. unfold sh_stage, say, level0.
  destruct (Z.eqb_spec (g_sh_compute g) 0); [contradiction|].
  destruct (g_quiet g); simpl; auto.
Qed.

Lemma is_mipmap_stage_call g iname levels :
  g_is_mipmap g = true ->
  In (Call_iblMipmapPrefilter iname levels (g_is_mipmap_dir g))
     (events (is_mipmap_stage g iname levels)).
Proof.
  intros H. unfold is_mipmap_stage, say. rewrite H.
  destruct (g_quiet g); simpl; auto.
Qed.

Lemma prefilter_stage_call g iname levels :
  g_prefilter g = true ->
  In (Call_iblRoughnessPrefilter iname levels (g_prefilter_dir g))
     (events (prefilter_stage g iname levels)).
Proof.
  intros H. unfold prefilter_stage, say. rewrite H.
  destruct (g_quiet g); simpl; auto.
Qed.

Lemma extract_stage_call g iname level rest :
  g_extract_faces g = true ->
  exists cm,
    In (Call_extractCubemapFaces iname cm (g_extract_dir g))
       (events (extract_stage g iname (level :: rest))).
Proof.
  intros H. unfold extract_stage, say, level0, create. rewrite H.
  rewrite bind_ret_l.
  destruct (negb (PrimFloat.eqb (g_extract_blur g) 0)), (g_quiet g);
    eexists; simpl; auto 6.
Qed.

(** What the deploy and debug blocks leave in the globals. *)
Lemma deploy_debug_globals iname g :
  g_deploy g = true ->
  let g' := apply_debug (apply_deploy iname g) in
  g_sh_compute g' = 3 /\
  g_prefilter g' = true /\ g_prefilter_dir g' = g_deploy_dir g /\
  g_extract_faces g' = true /\ g_extract_dir g' = g_deploy_dir g /\
  (g_debug g = true -> g_is_mipmap g = false ->
   g_is_mipmap g' = true /\ g_is_mipmap_dir g' = g_deploy_dir g).
Proof.
  intros Hd. unfold apply_debug, apply_deploy. rewrite Hd. cbv zeta.
  cbn [g_debug g_prefilter g_is_mipmap set_g_prefilter_dir set_g_prefilter
       set_g_extract_faces set_g_extract_dir set_g_sh_output set_g_sh_file
       set_g_sh_filename set_g_sh_irradiance set_g_sh_shader
       set_g_sh_compute negb andb].
  destruct (g_debug g), (g_is_mipmap g); cbn; repeat split;
    intros; try discriminate; reflexivity.
Qed.

(** X6.  With [--deploy], a run whose base cubemap loads goes through all
    of SH projection, the roughness prefilter and face extraction, the last
    two into the deploy directory, and returns 0; with [--debug] on top
    (and no [--ibl-is-mipmap]) the importance-sampling mipmaps go into the
    deploy directory too, since the deploy block runs before the debug
    block. *)
Theorem deploy_runs_all_consumers g iname base :
  g_deploy g = true ->
  outcome (load_base (apply_debug (apply_deploy iname g)) iname) = Ret base ->
  exists levels,
    map getDimensions levels
    = map getDimensions ([base] ++ mip_levels base) /\
    outcome (run_pipeline g iname) = Ret 0 /\
    (exists cm, In (Call_sphericalHarmonics iname cm)
                   (events (run_pipeline g iname))) /\
    In (Call_iblRoughnessPrefilter iname levels (g_deploy_dir g))
       (events (run_pipeline g iname)) /\
    (exists cm, In (Call_extractCubemapFaces iname cm (g_deploy_dir g))
                   (events (run_pipeline g iname))) /\
    (g_debug g = true -> g_is_mipmap g = false ->
     In (Call_iblMipmapPrefilter iname levels (g_deploy_dir g))
        (events (run_pipeline g iname))).
Proof.
  intros Hd Hb.
  destruct (run_pipeline_stages g iname base Hb) as [levels [Hm [E R]]].
  destruct (deploy_debug_globals iname g Hd)
    as [Hsh [Hp [Hpd [He [Hed Hdbg]]]]].
  set (g' := apply_debug (apply_deploy iname g)) in *.
  exists levels. split; [exact E|]. rewrite R.
  destruct levels as [|level rest]; [discriminate E|].
  cbn [outcome events fst snd]. split; [reflexivity|].
  split; [|split; [|split]].
  - exists level. do 3 (apply in_or_app; right).
    apply in_or_app. left. apply sh_stage_call. rewrite Hsh. discriminate.
  - do 5 (apply in_or_app; right). apply in_or_app. left.
    rewrite <- Hpd. apply prefilter_stage_call. exact Hp.
  - destruct (extract_stage_call g' iname level rest He) as [cm Hcm].
    exists cm. do 6 (apply in_or_app; right). rewrite <- Hed. exact Hcm.
  - intros H1 H2. destruct (Hdbg H1 H2) as [Hi Hid].
    do 4 (apply in_or_app; right). apply in_or_app. left.
    rewrite <- Hid. apply is_mipmap_stage_call. exact Hi.
Qed.

(** ** The chain the consumers get *)

(** The dimensions below [2^n]: [2^(n-1); ...; 2; 1]. *)
Fixpoint halving (n : nat) : list Z :=
  match n with
  | O => []
  | S m => 2 ^ Z.of_nat m :: halving m
  end.

Lemma mip_levels_halving (n : nat) : forall (src : Cubemap T),
  getDimensions src = 2 ^ Z.of_nat n ->
  map getDimensions (mip_levels src) = halving n.
Proof.
  induction n as [|n IH]; intros src Hd.
  - rewrite mip_levels_stop by (rewrite Hd; simpl; lia). reflexivity.
  - assert (Hpos : 1 < getDimensions src).
    { rewrite Hd, Nat2Z.inj_succ, Z.pow_succ_r by lia.
      assert (0 < 2 ^ Z.of_nat n) by (apply Z.pow_pos_nonneg; lia). lia. }
    rewrite mip_levels_step by exact Hpos.
    assert (Hn : getDimensions (next_level src) = 2 ^ Z.of_nat n).
    { rewrite next_level_getDimensions, Hd. apply pow2_half. }
    cbn [map halving]. rewrite (IH _ Hn), Hn. reflexivity.
Qed.

(** What a consumer call is given, for a chain [levels]. *)
Definition consumes (levels : list (Cubemap T)) (e : event) : Prop :=
  match e with
  | Call_sphericalHarmonics _ cm => hd_error levels = Some cm
  | Call_iblMipmapPrefilter _ lv _ => lv = levels
  | Call_iblRoughnessPrefilter _ lv _ => lv = levels
  | Call_roughnessFilter _ lv _ _ => lv = levels
  | Call_extractCubemapFaces _ cm _ =>
      hd_error levels = Some cm \/
      exists dim linear_roughness num_samples,
        cm = roughnessFilter (mkCubemap dim (fun _ _ _ => blank)) levels
                             linear_roughness num_samples
  | _ => True
  end.

Lemma consumers_consume g iname levels :
  Forall (consumes levels)
    (events (sh_stage g iname levels) ++
     events (is_mipmap_stage g iname levels) ++
     events (prefilter_stage g iname levels) ++
     events (extract_stage g iname levels)).
Proof.
  repeat (apply Forall_app; split);
    unfold sh_stage, is_mipmap_stage, prefilter_stage, extract_stage;
    events_ok; try exact I; try reflexivity; cbn [consumes].
  - match goal with
    | H : outcome (level0 ?l) = Ret _ |- _ =>
        destruct l; [discriminate H|]; apply ret_Ret in H; subst; reflexivity
    end.
  - right.
    match goal with
    | H : outcome (create ?d _) = Ret _ |- _ =>
        apply create_Ret in H; subst; exists d
    end.
    do 2 eexists. reflexivity.
  - left.
    match goal with
    | H : outcome (level0 ?l) = Ret _ |- _ =>
        destruct l; [discriminate H|]; apply ret_Ret in H; subst; reflexivity
    end.
Qed.

(** X10.  When the base cubemap has dimension [2^n], SH projection, both
    prefilters, the roughness filter and face extraction all work on one
    chain of [n+1] levels of dimensions [2^n, 2^(n-1), ..., 1], mirrored or
    not: SH projection and plain face extraction get its level 0, the
    filters the whole chain. *)
Theorem consumers_get_full_chain g iname base (n : nat) :
  outcome (load_base (apply_debug (apply_deploy iname g)) iname) = Ret base ->
  getDimensions base = 2 ^ Z.of_nat n ->
  exists levels,
    map getDimensions levels = 2 ^ Z.of_nat n :: halving n /\
    Forall (consumes levels) (events (run_pipeline g iname)).
Proof.
  intros Hb Hd.
  destruct (run_pipeline_stages g iname base Hb) as [levels [Hm [E R]]].
  exists levels. split.
  - rewrite E. simpl. rewrite Hd, (mip_levels_halving n base Hd).
    reflexivity.
  - rewrite R. cbn [events fst].
    apply Forall_app. split.
    { eapply Forall_impl; [|apply load_base_setup].
      intros e [He | [He | He]]; destruct e; try contradiction; exact I. }
    apply Forall_app. split.
    { eapply Forall_impl; [|apply generateMipmaps_setup].
      intros e He; destruct e; try contradiction; exact I. }
    apply Forall_app. split.
    { eapply Forall_impl; [|apply mirror_stage_setup].
      intros e [He | He]; destruct e; try contradiction; exact I. }
    apply consumers_consume.
Qed.

(** ** Quiet runs *)


Section Quiet.

Variable g : Globals.
Hypothesis quiet : g_quiet g = true.






End Quiet.





(** ** Input the decoder or the driver turns down *)

(** X5.  An input file the decoder cannot read, or one that does not have
    three channels, is reported and ends the run with status 0 right after
    decoding: the image is not clamped and no cubemap is created. *)
Theorem rejected_input_image g iname :
  path_exists iname = true ->
  (isValid (decode iname) = false ->
   run_pipeline g iname =
   (events (say g "Decoding image...") ++
    [Call_decode iname; Cerr "Unsupported image format!"], Exit 0)) /\
  (isValid (decode iname) = true ->
   getChannelsCount (decode iname) <> 3 ->
   run_pipeline g iname =
   (events (say g "Decoding image...") ++
    [Call_decode iname;
     Cerr ("Input image must be RGB (3 channels)! This image has "
           ++ string_of_Z (getChannelsCount (decode iname))
           ++ " channels.")], Exit 0)).
Proof.
  intros Hex. split.
  - intros Hv. unfold run_pipeline, load_base, load_image.
    rewrite Hex, Hv, say_after_deploy_debug. unfold say.
    destruct (g_quiet g); reflexivity.
  - intros Hv Hc. unfold run_pipeline, load_base, load_image.
    rewrite Hex, Hv, say_after_deploy_debug. unfold say.
    apply Z.eqb_neq in Hc. rewrite Hc.
    destruct (g_quiet g); reflexivity.
Qed.

(** ** Cross images *)

(** X11.  A horizontal cross of face size [d] (width [4d], height [3d],
    the width accepted by [isPOT]) is loaded into a cubemap of dimension
    [d] in horizontal layout, a vertical one (width [3d], height [4d]) into
    one of dimension [d] in vertical layout; the dimension comes from the
    image, [--size] plays no part. *)
Theorem cross_dimension g iname d :
  isValid (decode iname) = true ->
  getChannelsCount (decode iname) = 3 ->
  0 < d < 2 ^ 60 ->
  isPOT (4 * d) = true ->
  let cross_events layout :=
    events (say g "Decoding image...") ++ [Call_decode iname; Call_clamp] ++
    events (say g "Loading cross... ") ++
    [Call_create d (Some layout); Call_copyImage; Call_makeSeamless] in
  (getWidth (clamp (decode iname)) = 4 * d ->
   getHeight (clamp (decode iname)) = 3 * d ->
   events (load_image g iname) = cross_events true) /\
  (getWidth (clamp (decode iname)) = 3 * d ->
   getHeight (clamp (decode iname)) = 4 * d ->
   events (load_image g iname) = cross_events false).
Proof.
  intros Hv Hc Hd Hp cross_events.
  pose proof (load_image_dispatch g iname Hv Hc) as L. cbv zeta in L.
  assert (S4 : size_t (4 * d) = 4 * d /\ size_t (3 * d) = 3 * d).
  { change (2 ^ 60) with 1152921504606846976 in Hd.
    split; apply size_t_small;
      change (2 ^ 64) with 18446744073709551616; lia. }
  destruct S4 as [S4 S3].
  assert (S12 : size_t (4 * d * 3) = size_t (3 * d * 4))
    by (f_equal; lia).
  split; intros Hw Hh; rewrite Hw, Hh, S4, S3 in L; unfold is_cross in L.
  - rewrite Hp, S12, Z.eqb_refl in L. cbn [andb orb] in L.
    rewrite L. unfold cross_events.
    rewrite Z.max_r by lia.
    replace (4 * d / 4) with d
      by (rewrite Z.mul_comm, Z.div_mul by lia; reflexivity).
    replace (4 * d >? 3 * d) with true by (symmetry; apply Z.gtb_lt; lia).
    rewrite <- !app_assoc. reflexivity.
  - rewrite Hp, S12, Z.eqb_refl in L. cbn [andb orb] in L.
    rewrite orb_true_r in L.
    rewrite L. unfold cross_events.
    rewrite Z.max_l by lia.
    replace (4 * d / 4) with d
      by (rewrite Z.mul_comm, Z.div_mul by lia; reflexivity).
    replace (3 * d >? 4 * d) with false
      by (symmetry; rewrite Z.gtb_ltb; apply Z.ltb_ge; lia).
    rewrite <- !app_assoc. reflexivity.
Qed.

(** ** The blur of face extraction *)

Lemma handle_option_blur_other st o optarg st' :
  outcome (handle_option st o optarg) = Ret st' ->
  o <> opt_extract_blur ->
  g_extract_blur (globals st') = g_extract_blur (globals st).
Proof. intros H Ho. handler_step H o. Qed.

Lemma handle_option_blur st optarg st' :
  outcome (handle_option st opt_extract_blur optarg) = Ret st' ->
  PrimFloat.ltb (g_extract_blur (globals st')) 0 = false /\
  PrimFloat.ltb 1 (g_extract_blur (globals st')) = false.
Proof.
  intros H. handler_inv H. cbn.
  match goal with
  | E : (_ || _) = false |- _ => apply orb_false_iff in E; exact E
  end.
Qed.

(** X4.  An [--extract-blur] value below 0 or above 1 is reported and ends
    the run with status 0; after option handling the blur is the one the
    program started with or a value that is neither below 0 nor above 1. *)
Theorem extract_blur_checked g0 :
  (forall before optarg after args st b,
     outcome (parse_loop before (mkParse g0 3 false)) = Ret st ->
     stod (arg_of optarg) = Value b ->
     PrimFloat.ltb b 0 || PrimFloat.ltb 1 b = true ->
     main g0 (before ++ (opt_extract_blur, optarg) :: after) args
     = ([Cerr "roughness (blur) parameter must be between 0.0 and 1.0"],
        Exit 0)) /\
  (forall opts g,
     outcome (handleCommandLineArgments g0 opts) = Ret g ->
     g_extract_blur g = g_extract_blur g0 \/
     (PrimFloat.ltb (g_extract_blur g) 0 = false /\
      PrimFloat.ltb 1 (g_extract_blur g) = false)).
Proof.
  split.
  - intros before optarg after args st b Hb Hv Hr.
    assert (Hs : handle_option st opt_extract_blur optarg =
                 ([Cerr "roughness (blur) parameter must be between 0.0 and 1.0"],
                  Exit 0)).
    { unfold handle_option, unguarded. cbv zeta.
      rewrite Hv, bind_ret_l, Hr. reflexivity. }
    destruct (main_ends_at_option g0 before opt_extract_blur optarg after
                args st _ _ Hb Hs) as [E1 E2]; [discriminate|].
    destruct (main g0 (before ++ (opt_extract_blur, optarg) :: after) args)
      as [l r].
    simpl in E1, E2. subst. reflexivity.
  - intros opts g H. destruct (handle_Ret_inv _ _ _ H) as [st [H1 ->]].
    assert (E : g_extract_blur (finish_options st)
                = g_extract_blur (globals st)).
    { unfold finish_options.
      destruct (g_deploy _ && _), (negb _ && negb _); reflexivity. }
    rewrite E.
    apply (parse_loop_invariant
             (fun s => g_extract_blur (globals s) = g_extract_blur g0 \/
                       (PrimFloat.ltb (g_extract_blur (globals s)) 0 = false /\
                        PrimFloat.ltb 1 (g_extract_blur (globals s)) = false))
             opts (mkParse g0 3 false) st); [|left; reflexivity|exact H1].
    intros o a s s' _ Hs Hstep.
    destruct (opt_eqb o opt_extract_blur) eqn:Eo.
    + destruct o; try discriminate Eo. right.
      apply (handle_option_blur _ _ _ Hstep).
    + rewrite (handle_option_blur_other _ _ _ _ Hstep); [exact Hs|].
      intros ->. discriminate Eo.
Qed.

(** ** The number of SH bands *)

Definition enables_sh (o : opt) : Prop :=
  o = opt_sh \/ o = opt_sh_output \/ o = opt_sh_irradiance \/
  o = opt_sh_shader.

Lemma handle_option_sh_compute st o optarg st' :
  outcome (handle_option st o optarg) = Ret st' ->
  g_sh_compute (globals st) = 1 \/ enables_sh o ->
  g_sh_compute (globals st') = 1.
Proof.
  unfold enables_sh. intros H Ho.
  destruct o;
    try (rewrite handle_format in H; destruct (format_of_name _));
    handler_inv H; cbn; try reflexivity;
    destruct Ho as [Ho | [Ho | [Ho | [Ho | Ho]]]];
    try discriminate Ho; try exact Ho.
Qed.

Lemma handle_option_sh_value st optarg st' v :
  stoi (arg_of optarg) = Value v ->
  outcome (handle_option st opt_sh optarg) = Ret st' ->
  num_sh_bands st' = v.
Proof.
  intros Hv H. unfold handle_option in H. cbv zeta in H.
  rewrite Hv in H. injection H as <-. reflexivity.
Qed.

(** X12.  The band count SH projection runs with.  Any of [--sh],
    [--sh-output], [--sh-irradiance], [--sh-shader] turns SH computation
    on; without [--sh] it runs with 3 bands; when the last [--sh] carries
    the number [v] it runs with [v] bands, except that [--sh=0] does not
    turn it off but leaves the count at 1, and a negative [v] wraps around
    as a [size_t]. *)
Theorem sh_band_count g0 opts g :
  outcome (handleCommandLineArgments g0 opts) = Ret g ->
  ((exists o a, In (o, a) opts /\ enables_sh o) ->
   (forall a, ~ In (opt_sh, a) opts) ->
   g_sh_compute g = 3) /\
  (forall before a after v,
     opts = before ++ (opt_sh, a) :: after ->
     stoi (arg_of a) = Value v ->
     (forall a', ~ In (opt_sh, a') after) ->
     g_sh_compute g = if v =? 0 then 1 else size_t v).
Proof.
  intros H. destruct (handle_Ret_inv _ _ _ H) as [st [H1 ->]].
  assert (F : g_sh_compute (globals st) = 1 ->
              g_sh_compute (finish_options st)
              = if num_sh_bands st =? 0 then 1
                else size_t (num_sh_bands st)).
  { intros E. unfold finish_options.
    assert (G : forall gg, g_sh_compute gg = 1 ->
              g_sh_compute
                (if negb (num_sh_bands st =? 0)
                    && negb (g_sh_compute gg =? 0)
                 then set_g_sh_compute (size_t (num_sh_bands st)) gg
                 else gg)
              = if num_sh_bands st =? 0 then 1
                else size_t (num_sh_bands st)).
    { intros gg Hg. rewrite Hg.
      destruct (num_sh_bands st =? 0); [exact Hg | reflexivity]. }
    destruct (g_deploy _ && _); apply G; exact E. }
  split.
  - intros [o [a [Hin Ho]]] Hno.
    assert (E : g_sh_compute (globals st) = 1).
    { apply (parse_loop_reaches (fun s => g_sh_compute (globals s) = 1)
               o a opts (mkParse g0 3 false) st); [|exact Hin|exact H1].
      intros o' a' s s' Hs [HQ | Eq];
        apply (handle_option_sh_compute _ _ _ _ Hs).
      - left. exact HQ.
      - right. injection Eq as -> _. exact Ho. }
    assert (B : num_sh_bands st = 3).
    { apply (parse_loop_invariant (fun s => num_sh_bands s = 3)
               opts (mkParse g0 3 false) st); [|reflexivity|exact H1].
      intros o' a' s s' Hin' Hs Hstep.
      rewrite (handle_option_bands_other _ _ _ _ Hstep); [exact Hs|].
      intros ->. exact (Hno a' Hin'). }
    rewrite (F E), B. reflexivity.
  - intros before a after v -> Hv Hno.
    rewrite parse_loop_app in H1.
    destruct (bind_Ret_inv _ _ _ H1) as [st1 [_ H2]].
    rewrite parse_loop_cons in H2.
    destruct (bind_Ret_inv _ _ _ H2) as [st2 [H3 H4]].
    assert (P : g_sh_compute (globals st) = 1 /\ num_sh_bands st = v).
    { apply (parse_loop_invariant
               (fun s => g_sh_compute (globals s) = 1 /\ num_sh_bands s = v)
               after st2 st); [| |exact H4].
      - intros o' a' s s' Hin' [Hs1 Hs2] Hstep. split.
        + apply (handle_option_sh_compute _ _ _ _ Hstep). left. exact Hs1.
        + rewrite (handle_option_bands_other _ _ _ _ Hstep); [exact Hs2|].
          intros ->. exact (Hno a' Hin').
      - split.
        + apply (handle_option_sh_compute _ _ _ _ H3). right. left.
          reflexivity.
        + exact (handle_option_sh_value _ _ _ _ Hv H3). }
    destruct P as [E B]. rewrite (F E), B. reflexivity.
Qed.

(** ** Aspect ratios the driver turns down *)

(** X15.  A readable three-channel image that is neither a cross nor twice
    as wide as high is turned down after clamping: the size found and the
    three supported aspect ratios go to the error stream, no cubemap is
    created, and the run ends with status 0. *)
Theorem unsupported_aspect_ratio g iname :
  path_exists iname = true ->
  isValid (decode iname) = true ->
  getChannelsCount (decode iname) = 3 ->
  let width := size_t (getWidth (clamp (decode iname))) in
  let height := size_t (getHeight (clamp (decode iname))) in
  is_cross width height = false ->
  is_equirectangular width height = false ->
  run_pipeline g iname =
  (events (say g "Decoding image...") ++
   [Call_decode iname; Call_clamp;
    Cerr ("Aspect ratio not supported: " ++ string_of_Z width
          ++ "x" ++ string_of_Z height);
    Cerr "Supported aspect ratios:";
    Cerr "  2:1, lat/long or equirectangular";
    Cerr "  3:4, vertical cross (height must be power of two)";
    Cerr "  4:3, horizontal cross (width must be power of two)"], Exit 0).
Proof.
  intros Hex Hv Hc width height Hx He.
  unfold run_pipeline, load_base, load_image.
  rewrite Hex, Hv, Hc, say_after_deploy_debug. fold width height.
  rewrite Hx, He. unfold say.
  destruct (g_quiet g); reflexivity.
Qed.

(** ** Input files that do not exist *)



End Driver.

Arguments outcome {T A}.
Arguments events {T A}.
Arguments mkImage {T}.
Arguments isValid {T}.
Arguments getChannelsCount {T}.
Arguments getWidth {T}.
Arguments getHeight {T}.
Arguments imageData {T}.
Arguments Cout {T}.
Arguments Cerr {T}.
Arguments PrintUsage {T}.
Arguments PrintLicense {T}.
Arguments Call_iblLutDfg {T}.
Arguments Call_decode {T}.
Arguments Call_clamp {T}.
Arguments Call_create {T}.
Arguments Call_copyImage {T}.
Arguments Call_equirectangularToCubemap {T}.
Arguments Call_generateUVGrid {T}.
Arguments Call_brdf {T}.
Arguments Call_makeSeamless {T}.
Arguments Call_downsample {T}.
Arguments Call_mirrorCubemap {T}.
Arguments Call_sphericalHarmonics {T}.
Arguments Call_iblMipmapPrefilter {T}.
Arguments Call_iblRoughnessPrefilter {T}.
Arguments Call_roughnessFilter {T}.
Arguments Call_extractCubemapFaces {T}.

(** ** Concrete runs *)

(** Collaborators and a start state to run the model on examples: integer
    texels, the adjacency of the horizontal cross, averaging corners, a
    power-of-two test, a [std::stod] that knows three arguments, a file
    system with three images, and the globals of a fresh process. *)
Definition sample_isPOT (v : Z) : bool :=
  (0 <? v) && (v =? 2 ^ Z.log2 v).

Definition sample_corner (a b c : Z) : Z := (a + b + c) / 3.

Local Open Scope string_scope.

Definition sample_stod (s : string) : conv float :=
  if String.eqb s "0" then Value 0%float
  else if String.eqb s "0.5" then Value 0.5%float
  else if String.eqb s "2" then Value 2%float
  else Raise invalid_argument.

Definition sample_extension (s : string) : string :=
  if String.eqb s "sh.txt" then "txt" else "".

Definition sample_name (s : string) : string :=
  if String.eqb s "cross.png" then "cross"
  else if String.eqb s "pano.hdr" then "pano"
  else if String.eqb s "odd.png" then "odd"
  else s.

Definition sample_image (w h : Z) : Image Z :=
  mkImage true 3 w h (fun x y => (x + 2 * y)%Z).

Definition sample_exists (path : string) : bool :=
  String.eqb path "cross.png" || String.eqb path "pano.hdr"
  || String.eqb path "odd.png".

Definition sample_decode (path : string) : Image Z :=
  if String.eqb path "cross.png" then sample_image 8 6
  else if String.eqb path "pano.hdr" then sample_image 4 2
  else sample_image 5 5.

Definition sample_copy (dst : Cubemap Z) (src : Image Z) : texels Z :=
  fun _ x y => imageData src x y.

Definition sample_uvgrid (dst : Cubemap Z) (p : Z) : texels Z :=
  fun _ x y => ((x + y) mod (p + 1))%Z.

Definition sample_brdf (dst : Cubemap Z) (r : float) : texels Z :=
  fun _ _ _ => 1%Z.

Definition sample_mirror (dst src : Cubemap Z) : texels Z :=
  fun f x y => texelAt src f (getDimensions src - 1 - x)%Z y.

Definition sample_downsample (dst src : Cubemap Z) : texels Z :=
  fun f x y =>
    ((texelAt src f (2 * x) (2 * y) + texelAt src f (2 * x + 1) (2 * y)
      + texelAt src f (2 * x) (2 * y + 1)
      + texelAt src f (2 * x + 1) (2 * y + 1)) / 4)%Z.

Definition sample_importance (dst : Cubemap Z) (levels : list (Cubemap Z))
           (r : float) (n : Z) : texels Z :=
  fun _ _ _ => 7%Z.

Definition start_globals : Globals :=
  mkGlobals false PNG "" 0 0 false SH_NONE "" false false "" false 0%float
            false "" false "" false "" false 1024 false "" false false.

Definition sample_handle (opts : list parsed_option) : M Z Globals :=
  handleCommandLineArgments Z sample_isPOT sample_stod sample_extension
                            start_globals opts.

Definition sample_main (opts : list parsed_option) (args : list string)
  : M Z Z :=
  main Z sample_isPOT sample_stod sample_extension sample_name String.append
       sample_exists sample_decode (fun i => i) cross_neighbour sample_corner
       0%Z sample_copy sample_copy sample_uvgrid sample_brdf sample_mirror
       sample_downsample sample_importance (fun _ _ => 0.5%float)
       start_globals opts args.

Definition event_name (e : event Z) : string :=
  match e with
  | Cout _ => "cout"
  | Cerr _ => "cerr"
  | PrintUsage => "usage"
  | PrintLicense => "license"
  | Call_iblLutDfg _ _ _ => "iblLutDfg"
  | Call_decode _ => "decode"
  | Call_clamp => "clamp"
  | Call_create _ _ => "create"
  | Call_copyImage => "copyImage"
  | Call_equirectangularToCubemap => "equirectangularToCubemap"
  | Call_generateUVGrid _ => "generateUVGrid"
  | Call_brdf _ => "brdf"
  | Call_makeSeamless => "makeSeamless"
  | Call_downsample => "downsample"
  | Call_mirrorCubemap => "mirrorCubemap"
  | Call_sphericalHarmonics _ _ => "sphericalHarmonics"
  | Call_iblMipmapPrefilter _ _ _ => "iblMipmapPrefilter"
  | Call_iblRoughnessPrefilter _ _ _ => "iblRoughnessPrefilter"
  | Call_roughnessFilter _ _ _ _ => "roughnessFilter"
  | Call_extractCubemapFaces _ _ _ => "extractCubemapFaces"
  end.

(** A quiet run on a 4x2 panorama at size 2 with SH and face extraction:
    the calls it makes, in order. *)
Example run_panorama :
  map event_name
      (events (sample_main [(opt_quiet, None); (opt_size, Some "2");
                            (opt_sh, None); (opt_extract, Some "out")]
                           ["pano.hdr"]))
  = ["decode"; "clamp"; "create"; "equirectangularToCubemap"; "makeSeamless";
     "create"; "downsample"; "makeSeamless";
     "sphericalHarmonics"; "extractCubemapFaces"].
Proof. vm_compute. reflexivity. Qed.

(** The same with [--extract-blur=0.5] and [--mirror]. *)
Example run_panorama_blurred :
  map event_name
      (events (sample_main [(opt_quiet, None); (opt_size, Some "2");
                            (opt_mirror, None); (opt_extract, Some "out");
                            (opt_extract_blur, Some "0.5")]
                           ["pano.hdr"]))
  = ["decode"; "clamp"; "create"; "equirectangularToCubemap"; "makeSeamless";
     "create"; "downsample"; "makeSeamless";
     "create"; "mirrorCubemap"; "makeSeamless";
     "create"; "mirrorCubemap"; "makeSeamless";
     "create"; "roughnessFilter"; "extractCubemapFaces"].
Proof. vm_compute. reflexivity. Qed.

(** [makeSeamless] on a 2x2 cubemap with texel [x + 10 y + 100 face]: the
    ring texel left of +Z row 1 is the right edge texel of -X row 1. *)
Definition sample_cubemap : Cubemap Z :=
  mkCubemap 2 (fun f x y =>
    (x + 10 * y +
     100 * match f with
           | PX => 0 | NX => 1 | PY => 2 | NY => 3 | PZ => 4 | NZ => 5
           end)%Z).

Example stitch_example :
  texelAt (makeSeamless cross_neighbour sample_corner sample_cubemap)
          PZ (-1) 1 = 111%Z /\
  texelAt sample_cubemap NX 1 1 = 111%Z /\
  texelAt (makeSeamless cross_neighbour sample_corner sample_cubemap)
          PZ (-1) (-1) = ((400 + 101 + 210) / 3)%Z.
Proof. vm_compute. repeat split. Qed.

(** The cubemap the first run hands to SH projection: across the edge
    between +Z and -X ring and interior agree, texel by texel. *)
Definition sh_input (evs : list (event Z)) : option (Cubemap Z) :=
  match filter (fun e => match e with
                         | Call_sphericalHarmonics _ _ => true
                         | _ => false
                         end) evs with
  | Call_sphericalHarmonics _ cm :: _ => Some cm
  | _ => None
  end.

Example run_panorama_seam :
  match sh_input
          (events (sample_main [(opt_quiet, None); (opt_size, Some "2");
                                (opt_sh, None); (opt_extract, Some "out")]
                               ["pano.hdr"])) with
  | Some cm =>
      getDimensions cm = 2%Z /\
      texelAt cm PZ (-1) 0 = texelAt cm NX 1 0 /\
      texelAt cm PZ (-1) 1 = texelAt cm NX 1 1 /\
      texelAt cm NX 2 0 = texelAt cm PZ 0 0 /\
      texelAt cm NX 2 1 = texelAt cm PZ 0 1
  | None => False
  end.
Proof. vm_compute. repeat split. Qed.

(** [size_t] arithmetic wraps: a 4 x (3 + 3 * 2^62) image passes the cross
    test and would give a dimension that is no power of two, which is why
    the statement on dimensions assumes images that fit. *)
Example cross_test_wraps :
  is_cross sample_isPOT 4 (3 + 3 * 2 ^ 62) = true /\
  (Z.max (3 + 3 * 2 ^ 62) 4 / 4 = 3 * 2 ^ 60)%Z.
Proof. vm_compute. split; reflexivity. Qed.

Lemma sh_unparsable_keeps_default_witness :
  match outcome (sample_handle [(opt_quiet, None); (opt_sh, Some "abc")]) with
  | Ret g => g_sh_compute g = 3%Z /\ g_sh_output g = true
  | _ => False
  end.
Proof.
  destruct (outcome (sample_handle [(opt_quiet, None); (opt_sh, Some "abc")]))
    as [g | | |] eqn:E; try discriminate E.
  apply (sh_unparsable_keeps_default Z sample_isPOT sample_stod
           sample_extension start_globals
           [(opt_quiet, None); (opt_sh, Some "abc")] g).
  - intros a [H | [H | []]]; [discriminate H|].
    injection H as <-. reflexivity.
  - exists (Some "abc"). right. left. reflexivity.
  - exact E.
Defined.

Lemma deploy_format_default_witness :
  match outcome (sample_handle [(opt_deploy, Some "out")]) with
  | Ret g => g_format g = RGBM
  | _ => False
  end.
Proof.
  destruct (outcome (sample_handle [(opt_deploy, Some "out")]))
    as [g | | |] eqn:E; try discriminate E.
  apply (deploy_format_default Z sample_isPOT sample_stod sample_extension
           start_globals [(opt_deploy, Some "out")] g E).
  - exists (Some "out"). left. reflexivity.
  - intros a [H | []]. discriminate H.
Defined.

Lemma mip_chain_shape_witness :
  exists levels,
    outcome (generateMipmaps Z cross_neighbour sample_corner 0%Z
               sample_downsample [mkCubemap 8 (fun _ x y => (x + y)%Z)])
    = Ret levels /\
    List.length levels = 4%nat /\
    map getDimensions levels = [8; 4; 2; 1]%Z.
Proof.
  destruct (mip_chain_shape Z cross_neighbour sample_corner 0%Z
              sample_downsample 3 (mkCubemap 8 (fun _ x y => (x + y)%Z))
              eq_refl) as [levels [H [_ [Hlen _]]]].
  exists levels. split; [exact H|]. split; [exact Hlen|].
  injection H as <-. reflexivity.
Defined.

Lemma roughness_zero_direct_copy_witness :
  roughnessFilter Z sample_importance (mkCubemap 2 (fun _ _ _ => 0%Z))
                  [sample_cubemap] (-0)%float 1024
  = mkCubemap 2 (texelAt sample_cubemap).
Proof.
  apply (roughness_zero_direct_copy Z 0%Z sample_importance
           (mkCubemap 2 (fun _ _ _ => 0%Z)) sample_cubemap [] 1024
           start_globals "uv").
  reflexivity.
Defined.

Lemma aspect_ratio_dispatch_witness :
  In Call_copyImage
     (events (load_base Z sample_isPOT sample_name sample_exists sample_decode
                (fun i => i) cross_neighbour sample_corner 0%Z sample_copy
                sample_copy sample_uvgrid sample_brdf (fun _ _ => 0.5%float)
                start_globals "cross.png")).
Proof.
  apply (aspect_ratio_dispatch Z sample_isPOT
           sample_name String.append sample_exists sample_decode (fun i => i)
           cross_neighbour sample_corner 0%Z sample_copy sample_copy
           sample_uvgrid sample_brdf sample_mirror sample_downsample
           sample_importance (fun _ _ => 0.5%float) start_globals "cross.png").
  - reflexivity.
  - reflexivity.
  - reflexivity.
  - left. reflexivity.
  - reflexivity.
Defined.

Lemma makeSeamless_frame_witness :
  texelAt (makeSeamless cross_neighbour sample_corner sample_cubemap) PZ 0 1
  = texelAt sample_cubemap PZ 0 1.
Proof.
  destruct (makeSeamless_frame Z cross_neighbour sample_corner sample_cubemap
              PZ 0 1) as [W _].
  apply W. unfold interior.
  change (getDimensions sample_cubemap) with 2%Z. lia.
Defined.

Lemma sample_isPOT_sound : isPOT_sound sample_isPOT.
Proof.
  intros v H. unfold sample_isPOT in H.
  apply andb_true_iff in H. destruct H as [_ H]. apply Z.eqb_eq in H.
  right. exists (Z.log2 v). split; [apply Z.log2_nonneg | exact H].
Qed.

Lemma sample_images_fit : images_fit Z sample_decode (fun i => i).
Proof.
  intros path. unfold sample_decode.
  destruct (String.eqb path "cross.png"); [repeat split|].
  destruct (String.eqb path "pano.hdr"); repeat split.
Qed.

Lemma size_must_be_power_of_two_witness :
  sample_main [(opt_quiet, None); (opt_size, Some "100"); (opt_sh, None)]
              ["uv4"]
  = ([Cerr "output size must be a power of two"], Exit 0%Z) /\
  Forall (creates_pow2 Z)
         (events (sample_main [(opt_size, Some "4"); (opt_mirror, None)]
                              ["cross.png"])).
Proof.
  destruct (size_must_be_power_of_two Z sample_isPOT sample_stod
              sample_extension sample_name String.append sample_exists
              sample_decode (fun i => i) cross_neighbour sample_corner 0%Z
              sample_copy sample_copy sample_uvgrid sample_brdf sample_mirror
              sample_downsample sample_importance (fun _ _ => 0.5%float)
              start_globals) as [W1 [_ W3]].
  split.
  - apply (W1 [(opt_quiet, None)] (Some "100") [(opt_sh, None)] ["uv4"]
              (mkParse (set_g_quiet true start_globals) 3%Z false) 100%Z);
      reflexivity.
  - apply W3.
    + exact sample_isPOT_sound.
    + exact sample_images_fit.
    + reflexivity.
Defined.

Lemma dfg_default_size_witness :
  In (Call_iblLutDfg "dfg.png" 128%Z false)
     (events (sample_main [(opt_ibl_dfg, Some "dfg.png")] ["uv4"])).
Proof.
  apply (dfg_default_size Z sample_isPOT sample_stod sample_extension
           sample_name String.append sample_exists sample_decode (fun i => i)
           cross_neighbour sample_corner 0%Z sample_copy sample_copy
           sample_uvgrid sample_brdf sample_mirror sample_downsample
           sample_importance (fun _ _ => 0.5%float) start_globals
           [(opt_ibl_dfg, Some "dfg.png")] ["uv4"]
           (set_g_dfg_filename "dfg.png" (set_g_dfg true start_globals))).
  - reflexivity.
  - exists (Some "dfg.png"). left. reflexivity.
  - intros a [H | []]. discriminate H.
  - reflexivity.
Defined.

(** ** printUsage *)

Definition newline : string := String (ascii_of_nat 10) EmptyString.

(** The usage text of [printUsage], line by line. *)
Definition usage_lines : list string :=
  ["CMGEN is a command-line tool for generating SH and mipmap levels from an env map.";
   "Cubemaps and equirectangular formats are both supported, automatically detected ";
   "according to the aspect ratio of the source image.";
   "";
   "Usages:";
   "    CMGEN [options] <input-file>";
   "    CMGEN [options] <uv[N]>";
   "";
   "Supported input formats:";
   "    PNG, 8 and 16 bits";
   "    Radiance (.hdr)";
   "    Photoshop (.psd), 16 and 32 bits";
   "    OpenEXR (.exr)";
   "";
   "Options:";
   "   --help, -h";
   "       print this message";
   "";
   "   --license";
   "       Print copyright and license information";
   "";
   "   --quiet, -q";
   "       Quiet mode. Suppress all non-error output";
   "";
   "   --format=[exr|hdr|psd|rgbm|png|dds], -f [exr|hdr|psd|rgbm|png|dds]";
   "       specify output file format";
   "";
   "   --compression=COMPRESSION, -c COMPRESSION";
   "       format specific compression:";
   "           PNG: Ignored";
   "           PNG RGBM: Ignored";
   "           Radiance: Ignored";
   "           Photoshop: 16 (default), 32";
   "           OpenEXR: RAW, RLE, ZIPS, ZIP, PIZ (default)";
   "           DDS: 8, 16 (default), 32";
   "";
   "   --size=power-of-two, -s power-of-two";
   "       size of the output cubemaps (base level), 256 by default";
   "";
   "   --deploy=dir, -x dir";
   "       Generate everything needed for deployment into <dir>";
   "";
   "   --extract=dir";
   "       Extract faces of the cubemap into <dir>";
   "";
   "   --extract-blur=roughness";
   "       Blurs the cubemap before saving the faces using the roughness blur";
   "";
   "   --mirror";
   "       Mirrors generated cubemaps for reflections";
   "";
   "   --ibl-samples=numSamples";
   "       Number of samples to use for IBL integrations (default 1024)";
   "";
   "";
   "Private use only:";
   "   --ibl-dfg=filename.[exr|hdr|psd|png|rgbm|dds|h|hpp|c|cpp|inc|txt]";
   "       Computes the IBL DFG LUT";
   "";
   "   --ibl-dfg-multiscatter";
   "       If --ibl-dfg is set, computes the DFG for multi-scattering GGX";
   "";
   "   --ibl-is-mipmap=dir";
   "       Generates mipmap for pre-filtered importance sampling";
   "";
   "   --ibl-ld=dir";
   "       Roughness prefilter into <dir>";
   "";
   "   --sh=bands";
   "       SH decomposition of input cubemap";
   "";
   "   --sh-output=filename.[exr|hdr|psd|rgbm|png|dds|txt]";
   "       SH output format. The filename extension determines the output format";
   "";
   "   --sh-irradiance, -i";
   "       Irradiance SH coefficients";
   "";
   "   --sh-shader";
   "       Generate irradiance SH for shader code";
   "";
   "   --debug, -d";
   "       Generate extra data for debugging";
   "";
   ""]%string.
Definition usage : string := String.concat newline usage_lines.

(** [s.replace(pos, len, str)], for [pos] within [s]. *)
Definition replace (pos len : nat) (str s : string) : string :=
  substring 0 pos s ++ str
  ++ substring (pos + len) (String.length s - (pos + len)) s.

(** The loop
    [for (pos = usage.find(from); pos != npos; pos = usage.find(from, pos))
       usage.replace(pos, from.length(), exec_name);]
    from the position the last [find] gave; [None] when [fuel] iterations
    did not bring it to its end.  [index pos from usage] is
    [usage.find(from, pos)]. *)
Fixpoint replace_loop (fuel : nat) (from exec_name usage : string)
         (pos : option nat) : option string :=
  match pos with
  | None => Some usage
  | Some p =>
      match fuel with
      | O => None
      | S fuel' =>
          let usage' := replace p (String.length from) exec_name usage in
          replace_loop fuel' from exec_name usage' (index p from usage')
      end
  end.

(** [printUsage], as the text it prints for the executable's file name. *)
Definition printUsage (fuel : nat) (exec_name : string) : option string :=
  replace_loop fuel "CMGEN" exec_name usage (index 0 "CMGEN" usage).

Lemma length_append (a b : string) :
  String.length (a ++ b) = (String.length a + String.length b)%nat.
Proof. induction a as [|c a IH]; simpl; [reflexivity | rewrite IH; reflexivity]. Qed.

Lemma append_assoc (a b c : string) : (a ++ b) ++ c = a ++ b ++ c.
Proof. induction a as [|x a IH]; simpl; [reflexivity | rewrite IH; reflexivity]. Qed.

Lemma substring_all (s : string) : substring 0 (String.length s) s = s.
Proof. induction s as [|c s IH]; simpl; [reflexivity | rewrite IH; reflexivity]. Qed.

Lemma substring_head (a b : string) :
  substring 0 (String.length a) (a ++ b) = a.
Proof.
  induction a as [|c a IH]; simpl.
  - destruct b; reflexivity.
  - rewrite IH. reflexivity.
Qed.

Lemma substring_skip (a b : string) (n m : nat) :
  substring (String.length a + n) m (a ++ b) = substring n m b.
Proof. induction a as [|c a IH]; simpl; [reflexivity | exact IH]. Qed.

(** Replacing the occurrence of [from] that follows [pre]. *)
Lemma replace_occurrence pre from str post :
  replace (String.length pre) (String.length from) str (pre ++ from ++ post)
  = pre ++ str ++ post.
Proof.
  unfold replace. rewrite substring_head. do 2 f_equal.
  rewrite substring_skip.
  rewrite !length_append.
  replace (String.length pre + (String.length from + String.length post)
           - (String.length pre + String.length from))%nat
    with (String.length post) by lia.
  rewrite <- (Nat.add_0_r (String.length from)).
  rewrite substring_skip. apply substring_all.
Qed.

(** Searching from the end of [pre] is searching what follows it. *)
Lemma index_after pre from rest :
  index (String.length pre) from (pre ++ rest)
  = option_map (fun k => (String.length pre + k)%nat) (index 0 from rest).
Proof.
  induction pre as [|c pre IH]; simpl.
  - destruct (index 0 from rest); reflexivity.
  - rewrite IH. destruct (index 0 from rest); reflexivity.
Qed.

Lemma index_found_here from rest :
  from <> EmptyString -> prefix from rest = true ->
  index 0 from rest = Some O.
Proof.
  intros Hf Hp. destruct rest as [|c rest].
  - destruct from; [contradiction | discriminate Hp].
  - simpl index. simpl in Hp. rewrite Hp. reflexivity.
Qed.

Lemma prefix_append (a b : string) : prefix a (a ++ b) = true.
Proof.
  induction a as [|c a IH]; simpl.
  - destruct b; reflexivity.
  - rewrite IH. destruct (ascii_dec c c); [reflexivity | contradiction].
Qed.

(** Whether the character [c] occurs in [s]. *)
Fixpoint has_char (c : ascii) (s : string) : bool :=
  match s with
  | EmptyString => false
  | String x s' => if ascii_dec c x then true else has_char c s'
  end.

(** The usage text between and after its three occurrences of CMGEN. *)
Definition usage_1 : string := substring 5 222 usage.
Definition usage_2 : string := substring 232 28 usage.
Definition usage_3 : string := substring 265 1962 usage.

Lemma usage_occurrences :
  usage = "CMGEN" ++ usage_1 ++ "CMGEN" ++ usage_2 ++ "CMGEN" ++ usage_3.
Proof. vm_compute. reflexivity. Qed.

(** A name without the first character of [from] hides no occurrence:
    the next one is the first of what follows the name. *)
Lemma index_past_name c from post : forall name,
  has_char c name = false ->
  index 0 (String c from) (name ++ post)
  = option_map (fun k => (String.length name + k)%nat)
               (index 0 (String c from) post).
Proof.
  induction name as [|x name IH]; intros Hn.
  - simpl. destruct (index 0 (String c from) post); reflexivity.
  - simpl in Hn. destruct (ascii_dec c x) as [|Hx]; [discriminate|].
    change ((String x name ++ post)%string) with (String x (name ++ post)).
    simpl index. destruct (ascii_dec c x); [contradiction|].
    rewrite (IH Hn).
    destruct (index 0 (String c from) post); reflexivity.
Qed.

(** One iteration of the loop at an occurrence of [from], when the
    executable's name does not contain the first character of [from]:
    the search goes on in what followed the occurrence. *)
Lemma replace_loop_step fuel c from name pre rest :
  has_char c name = false ->
  replace_loop (S fuel) (String c from) name
               (pre ++ String c from ++ rest) (Some (String.length pre))
  = replace_loop fuel (String c from) name (pre ++ name ++ rest)
      (option_map (fun k => (String.length pre + String.length name + k)%nat)
                  (index 0 (String c from) rest)).
Proof.
  intros Hn.
  cbn [replace_loop]. rewrite replace_occurrence.
  rewrite index_after, (index_past_name c from rest name Hn).
  destruct (index 0 (String c from) rest); cbn [option_map];
    [rewrite Nat.add_assoc|]; reflexivity.
Qed.

(** The same iteration when the next occurrence follows [mid]. *)
Lemma replace_loop_next fuel c from name pre mid post :
  has_char c name = false ->
  index 0 (String c from) (mid ++ String c from ++ post)
  = Some (String.length mid) ->
  replace_loop (S fuel) (String c from) name
               (pre ++ String c from ++ mid ++ String c from ++ post)
               (Some (String.length pre))
  = replace_loop fuel (String c from) name
                 ((pre ++ name ++ mid) ++ String c from ++ post)
                 (Some (String.length (pre ++ name ++ mid))).
Proof.
  intros Hn Hp. rewrite (replace_loop_step _ _ _ _ _ _ Hn), Hp.
  cbn [option_map]. rewrite !length_append, !append_assoc, Nat.add_assoc.
  reflexivity.
Qed.

(** The same iteration when no occurrence is left. *)
Lemma replace_loop_last fuel c from name pre rest :
  has_char c name = false ->
  index 0 (String c from) rest = None ->
  replace_loop (S fuel) (String c from) name
               (pre ++ String c from ++ rest) (Some (String.length pre))
  = Some (pre ++ name ++ rest).
Proof.
  intros Hn Hp. rewrite (replace_loop_step _ _ _ _ _ _ Hn), Hp.
  destruct fuel; reflexivity.
Qed.

(** When the executable's name holds the text that is searched for, after
    a part without its first character, the search finds the occurrence
    in the name it has just put in, and the loop goes round for ever. *)
Lemma replace_loop_diverges c from head tail fuel : forall pre post,
  has_char c head = false ->
  replace_loop fuel (String c from) (head ++ String c from ++ tail)
               (pre ++ String c from ++ post) (Some (String.length pre))
  = None.
Proof.
  induction fuel as [|fuel IH]; intros pre post Hn; [reflexivity|].
  cbn [replace_loop]. rewrite replace_occurrence.
  rewrite index_after, !append_assoc.
  rewrite (index_past_name c from _ head Hn).
  rewrite (index_found_here (String c from) _ ltac:(discriminate)
             (prefix_append _ _)).
  cbn [option_map]. rewrite Nat.add_0_r, <- length_append.
  rewrite <- (append_assoc pre head). apply IH. exact Hn.
Qed.

(** X13.  [printUsage] does not terminate when the file name of the
    executable contains CMGEN with no capital C before it: the loop looks
    for the next CMGEN from the position of the replacement, finds the one
    in the name it has just inserted and replaces that again, so no number
    of iterations ends it. *)
Theorem printUsage_diverges fuel head tail :
  has_char "C" head = false ->
  printUsage fuel (head ++ "CMGEN" ++ tail) = None.
Proof.
  intros Hn. unfold printUsage.
  replace (index 0 "CMGEN" usage) with (Some (String.length ""))
    by (vm_compute; reflexivity).
  rewrite usage_occurrences.
  change ("CMGEN" ++ usage_1 ++ "CMGEN" ++ usage_2 ++ "CMGEN" ++ usage_3)
    with ("" ++ "CMGEN" ++ usage_1 ++ "CMGEN" ++ usage_2 ++ "CMGEN" ++ usage_3).
  apply replace_loop_diverges. exact Hn.
Qed.

(** X14.  For an executable whose file name contains no capital C,
    [printUsage] ends after three iterations and prints the usage text
    with each of its three occurrences of CMGEN replaced by that name. *)
Theorem printUsage_substitutes fuel name :
  has_char "C" name = false ->
  (3 <= fuel)%nat ->
  printUsage fuel name
  = Some (name ++ usage_1 ++ name ++ usage_2 ++ name ++ usage_3).
Proof.
  intros Hn Hf.
  destruct fuel as [|[|[|fuel]]]; try lia.
  unfold printUsage.
  replace (index 0 "CMGEN" usage) with (Some (String.length ""))
    by (vm_compute; reflexivity).
  rewrite usage_occurrences.
  change ("CMGEN" ++ usage_1 ++ "CMGEN" ++ usage_2 ++ "CMGEN" ++ usage_3)
    with ("" ++ "CMGEN" ++ usage_1 ++ "CMGEN" ++ usage_2 ++ "CMGEN" ++ usage_3).
  rewrite (replace_loop_next _ "C" "MGEN" name "" usage_1 _ Hn)
    by (vm_compute; reflexivity).
  rewrite (replace_loop_next _ "C" "MGEN" name _ usage_2 usage_3 Hn)
    by (vm_compute; reflexivity).
  rewrite (replace_loop_last _ "C" "MGEN" name _ usage_3 Hn)
    by (vm_compute; reflexivity).
  rewrite !append_assoc. reflexivity.
Qed.

(** ** The runs of the further properties *)

Definition sample_pipeline (g : Globals) (iname : string) : M Z Z :=
  run_pipeline Z sample_isPOT sample_name String.append sample_exists
               sample_decode (fun i => i) cross_neighbour sample_corner 0%Z
               sample_copy sample_copy sample_uvgrid sample_brdf
               sample_mirror sample_downsample sample_importance
               (fun _ _ => 0.5%float) g iname.

(** The globals after [--deploy=out --size=2]. *)
Definition deploy_globals : Globals :=
  set_g_output_size 2 (set_g_deploy_dir "out" (set_g_deploy true start_globals)).

(** A decoder that recognises no file. *)
Definition broken_decode (path : string) : Image Z :=
  mkImage false 0 0 0 (fun _ _ => 0%Z).


Lemma bad_number_is_uncaught_witness :
  sample_main [(opt_quiet, None); (opt_size, Some "abc"); (opt_sh, None)]
              ["uv4"]
  = ([], Uncaught invalid_argument).
Proof.
  destruct (bad_number_is_uncaught Z sample_isPOT sample_stod
              sample_extension sample_name String.append sample_exists
              sample_decode (fun i => i) cross_neighbour sample_corner 0%Z
              sample_copy sample_copy sample_uvgrid sample_brdf
              sample_mirror sample_downsample sample_importance
              (fun _ _ => 0.5%float) start_globals [(opt_quiet, None)]
              (Some "abc") [(opt_sh, None)] ["uv4"]
              (mkParse (set_g_quiet true start_globals) 3%Z false)
              invalid_argument)
    as [W _]; [reflexivity | apply W; reflexivity].
Defined.


Lemma dfg_only_run_witness :
  sample_main [(opt_ibl_dfg, Some "dfg.png")] []
  = ([Cout "Generating IBL DFG LUT...";
      Call_iblLutDfg "dfg.png" 128%Z false], Ret 0%Z).
Proof.
  apply (dfg_only_run Z sample_isPOT sample_stod
           sample_extension sample_name String.append sample_exists
           sample_decode (fun i => i) cross_neighbour sample_corner 0%Z
           sample_copy sample_copy sample_uvgrid sample_brdf
           sample_mirror sample_downsample sample_importance
           (fun _ _ => 0.5%float) start_globals
           [(opt_ibl_dfg, Some "dfg.png")]
           (set_g_dfg_filename "dfg.png" (set_g_dfg true start_globals))
           (Some "dfg.png")).
  - left. reflexivity.
  - reflexivity.
Defined.

(** The base cubemap of a run on the 4x2 panorama at size 2. *)
Definition sample_base : Cubemap Z :=
  makeSeamless cross_neighbour sample_corner
    (with_texels (mkCubemap 2 (fun _ _ _ => 0%Z))
       (sample_copy (mkCubemap 2 (fun _ _ _ => 0%Z))
                    (sample_decode "pano.hdr"))).

Lemma deploy_runs_all_consumers_witness :
  outcome (sample_pipeline deploy_globals "pano.hdr") = Ret 0%Z /\
  exists cm,
    In (Call_extractCubemapFaces "pano.hdr" cm "out")
       (events (sample_pipeline deploy_globals "pano.hdr")).
Proof.
  destruct (deploy_runs_all_consumers Z sample_isPOT sample_name
              String.append sample_exists sample_decode (fun i => i)
              cross_neighbour sample_corner 0%Z sample_copy sample_copy
              sample_uvgrid sample_brdf sample_mirror sample_downsample
              sample_importance (fun _ _ => 0.5%float) deploy_globals
              "pano.hdr" sample_base eq_refl eq_refl)
    as [levels [_ [W1 [_ [_ [W2 _]]]]]].
  split; [exact W1 | exact W2].
Defined.

Lemma consumers_get_full_chain_witness :
  exists levels,
    map getDimensions levels = [2; 1]%Z /\
    Forall (consumes Z 0%Z sample_importance levels)
           (events (sample_pipeline deploy_globals "pano.hdr")).
Proof.
  exact (consumers_get_full_chain Z sample_isPOT sample_name
           String.append sample_exists sample_decode (fun i => i)
           cross_neighbour sample_corner 0%Z sample_copy sample_copy
           sample_uvgrid sample_brdf sample_mirror sample_downsample
           sample_importance (fun _ _ => 0.5%float) deploy_globals
           "pano.hdr" sample_base 1%nat eq_refl eq_refl).
Defined.


Lemma rejected_input_image_witness :
  run_pipeline Z sample_isPOT sample_name String.append sample_exists
               broken_decode (fun i => i) cross_neighbour sample_corner 0%Z
               sample_copy sample_copy sample_uvgrid sample_brdf
               sample_mirror sample_downsample sample_importance
               (fun _ _ => 0.5%float) start_globals "pano.hdr"
  = ([Cout "Decoding image..."; Call_decode "pano.hdr";
      Cerr "Unsupported image format!"], Exit 0%Z).
Proof.
  destruct (rejected_input_image Z sample_isPOT sample_name String.append
              sample_exists broken_decode (fun i => i) cross_neighbour
              sample_corner 0%Z sample_copy sample_copy sample_uvgrid
              sample_brdf sample_mirror sample_downsample sample_importance
              (fun _ _ => 0.5%float) start_globals "pano.hdr")
    as [W _]; [reflexivity | apply W; reflexivity].
Defined.

Lemma cross_dimension_witness :
  events (load_image Z sample_isPOT sample_decode (fun i => i)
            cross_neighbour sample_corner 0%Z sample_copy sample_copy
            start_globals "cross.png")
  = [Cout "Decoding image..."; Call_decode "cross.png"; Call_clamp;
     Cout "Loading cross... "; Call_create 2%Z (Some true); Call_copyImage;
     Call_makeSeamless].
Proof.
  destruct (cross_dimension Z sample_isPOT sample_decode (fun i => i)
              cross_neighbour sample_corner 0%Z sample_copy sample_copy
              start_globals "cross.png" 2%Z)
    as [W _]; [reflexivity | reflexivity | lia | reflexivity |].
  apply W; reflexivity.
Defined.

Lemma extract_blur_checked_witness :
  sample_main [(opt_quiet, None); (opt_extract_blur, Some "2")] ["uv4"]
  = ([Cerr "roughness (blur) parameter must be between 0.0 and 1.0"],
     Exit 0%Z).
Proof.
  destruct (extract_blur_checked Z sample_isPOT sample_stod
              sample_extension sample_name String.append sample_exists
              sample_decode (fun i => i) cross_neighbour sample_corner 0%Z
              sample_copy sample_copy sample_uvgrid sample_brdf
              sample_mirror sample_downsample sample_importance
              (fun _ _ => 0.5%float) start_globals) as [W _].
  apply (W [(opt_quiet, None)] (Some "2") [] ["uv4"]
           (mkParse (set_g_quiet true start_globals) 3%Z false) 2%float);
    reflexivity.
Defined.

Lemma sh_band_count_witness :
  match outcome (sample_handle [(opt_sh, Some "5"); (opt_quiet, None)]) with
  | Ret g => g_sh_compute g = 5%Z
  | _ => False
  end.
Proof.
  destruct (outcome (sample_handle [(opt_sh, Some "5"); (opt_quiet, None)]))
    as [g | | |] eqn:E; try discriminate E.
  destruct (sh_band_count Z sample_isPOT sample_stod sample_extension
              start_globals [(opt_sh, Some "5"); (opt_quiet, None)] g E)
    as [_ W].
  apply (W [] (Some "5") [(opt_quiet, None)] 5%Z).
  - reflexivity.
  - reflexivity.
  - intros a [H | []]. discriminate H.
Defined.

Lemma printUsage_diverges_witness : printUsage 1000 "myCMGEN.exe" = None.
Proof. apply (printUsage_diverges 1000 "my" ".exe"). reflexivity. Defined.

Lemma printUsage_substitutes_witness :
  printUsage 3 "cmgen"
  = Some ("cmgen" ++ usage_1 ++ "cmgen" ++ usage_2 ++ "cmgen" ++ usage_3).
Proof. apply (printUsage_substitutes 3 "cmgen"); [reflexivity | lia]. Defined.

(** A decoder that reads every file as a 5x5 image. *)
Definition square_decode (path : string) : Image Z := sample_image 5 5.

Lemma unsupported_aspect_ratio_witness :
  run_pipeline Z sample_isPOT sample_name String.append sample_exists
               square_decode (fun i => i) cross_neighbour sample_corner 0%Z
               sample_copy sample_copy sample_uvgrid sample_brdf
               sample_mirror sample_downsample sample_importance
               (fun _ _ => 0.5%float) start_globals "odd.png"
  = ([Cout "Decoding image..."; Call_decode "odd.png"; Call_clamp;
      Cerr "Aspect ratio not supported: 5x5";
      Cerr "Supported aspect ratios:";
      Cerr "  2:1, lat/long or equirectangular";
      Cerr "  3:4, vertical cross (height must be power of two)";
      Cerr "  4:3, horizontal cross (width must be power of two)"],
     Exit 0%Z).
Proof.
  apply (unsupported_aspect_ratio Z sample_isPOT sample_name String.append
           sample_exists square_decode (fun i => i) cross_neighbour
           sample_corner 0%Z sample_copy sample_copy sample_uvgrid
           sample_brdf sample_mirror sample_downsample sample_importance
           (fun _ _ => 0.5%float) start_globals "odd.png");
    reflexivity.
Defined.

